(** * A shallow embedding of the multiplayer game client [game.js]

    The class [GameClient] becomes a record of its fields; its methods
    become functions on that record.  JavaScript numbers that hold world
    or screen coordinates are modelled as mathematical reals (the
    rounding of IEEE doubles is outside of this model), counters as
    [nat], timestamps and timer delays as [Z], the three [Map]s as finite
    maps keyed by strings.  Rendering only reads the state: what
    [drawPlayer] and [drawNPC] put on the canvas is a list of canvas
    operations.

    Two parts of the code are modelled a second time, closer to what
    JavaScript runs, where the first model is too coarse for the question
    asked: the two coordinate conversions on binary64 doubles, for what is
    exact and what is only exact up to rounding, and the loop of
    [loadAvatarImages] on avatar definitions whose frames may be missing,
    for when it throws. *)

From Stdlib Require Import Reals Lra Lia ZArith String List.
From Stdlib Require PrimFloat Uint63.
From stdpp Require Import base option strings gmap fin_maps.
Import ListNotations.

Local Open Scope R_scope.

(** ** Data model *)

Inductive Facing := north | south | east | west.

Record Player := mkPlayer {
  p_id : string;
  p_username : string;
  p_x : R;
  p_y : R;
  p_facing : Facing;
  p_animationFrame : nat;
  p_avatar : string
}.

(** An image handle: either decoded from a payload of the server, or the
    coloured square that [createNPCAvatars] paints on a scratch canvas. *)
Inductive Image :=
| ImageSrc (src : string)
| ImageSquare (color : string).

(** An avatar definition as the server sends it: it always carries its
    frames; [a_images] is [None] until [loadAvatarImages] has derived the
    images from them. *)
Record Avatar := mkAvatar {
  a_name : string;
  a_frames : gmap string (list string);
  a_images : option (gmap string (list Image))
}.

Record NPC := mkNPC {
  n_id : string;
  n_name : string;
  n_x : R;
  n_y : R;
  n_avatar : string;
  n_followDistance : R;
  n_facing : Facing;
  n_isMoving : bool;
  n_animationFrame : nat;
  n_lastUpdate : Z
}.

Record Viewport := mkViewport {
  v_x : R;
  v_y : R;
  v_width : R;
  v_height : R
}.

Inductive ReadyState := CONNECTING | OPEN | CLOSING | CLOSED.

(** Messages sent to the server. *)
Inductive Outbound :=
| OutJoin (username : string)
| OutMove (direction : string)
| OutStop.

(** A timer requested with [setTimeout]: its delay in milliseconds and
    whether it has fired yet. *)
Record Timer := mkTimer {
  t_delay : Z;
  t_fired : bool
}.

(** The fields of [GameClient].  [timers] and [sent] are not fields of the
    class: they record the calls of [setTimeout] and [ws.send], in order. *)
Record GameClient := mkGameClient {
  players : gmap string Player;
  avatars : gmap string Avatar;
  myPlayerId : option string;
  myPlayer : option Player;
  npcs : gmap string NPC;
  npcAvatars : gmap string Avatar;
  viewport : Viewport;
  ws : option ReadyState;
  reconnectAttempts : nat;
  timers : list Timer;
  sent : list Outbound
}.

(** The constructor assigns these three once and nothing writes them
    afterwards. *)
Definition worldWidth : R := 2048.
Definition worldHeight : R := 2048.
Definition maxReconnectAttempts : nat := 5.

(** ** Field updates *)

Definition set_players (f : gmap string Player -> gmap string Player) (g : GameClient) :=
  mkGameClient (f (players g)) (avatars g) (myPlayerId g) (myPlayer g) (npcs g)
    (npcAvatars g) (viewport g) (ws g) (reconnectAttempts g) (timers g) (sent g).

Definition set_avatars (f : gmap string Avatar -> gmap string Avatar) (g : GameClient) :=
  mkGameClient (players g) (f (avatars g)) (myPlayerId g) (myPlayer g) (npcs g)
    (npcAvatars g) (viewport g) (ws g) (reconnectAttempts g) (timers g) (sent g).

Definition set_myPlayerId (i : option string) (g : GameClient) :=
  mkGameClient (players g) (avatars g) i (myPlayer g) (npcs g)
    (npcAvatars g) (viewport g) (ws g) (reconnectAttempts g) (timers g) (sent g).

Definition set_myPlayer (p : option Player) (g : GameClient) :=
  mkGameClient (players g) (avatars g) (myPlayerId g) p (npcs g)
    (npcAvatars g) (viewport g) (ws g) (reconnectAttempts g) (timers g) (sent g).

Definition set_npcs (f : gmap string NPC -> gmap string NPC) (g : GameClient) :=
  mkGameClient (players g) (avatars g) (myPlayerId g) (myPlayer g) (f (npcs g))
    (npcAvatars g) (viewport g) (ws g) (reconnectAttempts g) (timers g) (sent g).

Definition set_npcAvatars (f : gmap string Avatar -> gmap string Avatar) (g : GameClient) :=
  mkGameClient (players g) (avatars g) (myPlayerId g) (myPlayer g) (npcs g)
    (f (npcAvatars g)) (viewport g) (ws g) (reconnectAttempts g) (timers g) (sent g).

Definition set_viewport (v : Viewport) (g : GameClient) :=
  mkGameClient (players g) (avatars g) (myPlayerId g) (myPlayer g) (npcs g)
    (npcAvatars g) v (ws g) (reconnectAttempts g) (timers g) (sent g).

Definition set_ws (s : option ReadyState) (g : GameClient) :=
  mkGameClient (players g) (avatars g) (myPlayerId g) (myPlayer g) (npcs g)
    (npcAvatars g) (viewport g) s (reconnectAttempts g) (timers g) (sent g).

Definition set_reconnectAttempts (n : nat) (g : GameClient) :=
  mkGameClient (players g) (avatars g) (myPlayerId g) (myPlayer g) (npcs g)
    (npcAvatars g) (viewport g) (ws g) n (timers g) (sent g).

Definition set_timers (f : list Timer -> list Timer) (g : GameClient) :=
  mkGameClient (players g) (avatars g) (myPlayerId g) (myPlayer g) (npcs g)
    (npcAvatars g) (viewport g) (ws g) (reconnectAttempts g) (f (timers g)) (sent g).

Definition set_sent (f : list Outbound -> list Outbound) (g : GameClient) :=
  mkGameClient (players g) (avatars g) (myPlayerId g) (myPlayer g) (npcs g)
    (npcAvatars g) (viewport g) (ws g) (reconnectAttempts g) (timers g) (f (sent g)).

(** ** Camera: coordinate conversion and viewport *)

Record Pos := mkPos {
  pos_x : R;
  pos_y : R
}.

Definition worldToScreen (g : GameClient) (worldX worldY : R) : Pos :=
  {| pos_x := worldX - v_x (viewport g);
     pos_y := worldY - v_y (viewport g) |}.

Definition screenToWorld (g : GameClient) (screenX screenY : R) : Pos :=
  {| pos_x := screenX + v_x (viewport g);
     pos_y := screenY + v_y (viewport g) |}.

(** [Math.max(0, Math.min(v, hi))], the clamp that [updateViewport] and
    [updateNPCs] both write out. *)
Definition clampTo (hi v : R) : R := Rmax 0 (Rmin v hi).

Definition updateViewport (g : GameClient) : GameClient :=
  match myPlayer g with
  | None => g
  | Some p =>
      let centerX := p_x p in
      let centerY := p_y p in
      let viewportX := centerX - v_width (viewport g) / 2 in
      let viewportY := centerY - v_height (viewport g) / 2 in
      let viewportX := clampTo (worldWidth - v_width (viewport g)) viewportX in
      let viewportY := clampTo (worldHeight - v_height (viewport g)) viewportY in
      set_viewport {| v_x := viewportX; v_y := viewportY;
                      v_width := v_width (viewport g);
                      v_height := v_height (viewport g) |} g
  end.

(** ** Companion simulator *)

(** [Math.atan2] on reals (no signed zeros, no infinities). *)
Definition atan2 (y x : R) : R :=
  if Rlt_dec 0 x then atan (y / x)
  else if Rlt_dec x 0 then
    if Rle_dec 0 y then atan (y / x) + PI else atan (y / x) - PI
  else if Rlt_dec 0 y then PI / 2
  else if Rlt_dec y 0 then - (PI / 2)
  else 0.

Definition updateInterval : Z := 100.
Definition moveSpeed : R := 2.

(** The distance that the loop body computes between a companion and the
    local player. *)
Definition distanceTo (p : Player) (npc : NPC) : R :=
  let dx := p_x p - n_x npc in
  let dy := p_y p - n_y npc in
  sqrt (dx * dx + dy * dy).

(** The body of the loop of [updateNPCs] after its time gate. *)
Definition tickNPC (p : Player) (now : Z) (npc : NPC) : NPC :=
  let dx := p_x p - n_x npc in
  let dy := p_y p - n_y npc in
  let distance := sqrt (dx * dx + dy * dy) in
  let npc :=
    if Rgt_dec distance (n_followDistance npc) then
      let angle := atan2 dy dx in
      {| n_id := n_id npc; n_name := n_name npc;
         n_x := n_x npc + cos angle * moveSpeed;
         n_y := n_y npc + sin angle * moveSpeed;
         n_avatar := n_avatar npc;
         n_followDistance := n_followDistance npc;
         n_facing :=
           if Rgt_dec (Rabs dx) (Rabs dy)
           then (if Rgt_dec dx 0 then east else west)
           else (if Rgt_dec dy 0 then south else north);
         n_isMoving := true;
         n_animationFrame := (n_animationFrame npc + 1) mod 3;
         n_lastUpdate := n_lastUpdate npc |}
    else
      {| n_id := n_id npc; n_name := n_name npc;
         n_x := n_x npc; n_y := n_y npc;
         n_avatar := n_avatar npc;
         n_followDistance := n_followDistance npc;
         n_facing := n_facing npc;
         n_isMoving := false;
         n_animationFrame := 0;
         n_lastUpdate := n_lastUpdate npc |} in
  {| n_id := n_id npc; n_name := n_name npc;
     n_x := clampTo worldWidth (n_x npc);
     n_y := clampTo worldHeight (n_y npc);
     n_avatar := n_avatar npc;
     n_followDistance := n_followDistance npc;
     n_facing := n_facing npc;
     n_isMoving := n_isMoving npc;
     n_animationFrame := n_animationFrame npc;
     n_lastUpdate := now |}.

(** One iteration of the loop: companions updated less than
    [updateInterval] ago are skipped. *)
Definition updateNPC (p : Player) (now : Z) (npc : NPC) : NPC :=
  if (now - n_lastUpdate npc <? updateInterval)%Z then npc
  else tickNPC p now npc.

Definition updateNPCs (now : Z) (g : GameClient) : GameClient :=
  match myPlayer g with
  | None => g
  | Some p =>
      if bool_decide (size (npcs g) = 0%nat) then g
      else set_npcs (fmap (updateNPC p now)) g
  end.

(** [createNPCAvatars]: one coloured square per companion kind, used for
    every facing and frame. *)
Definition npcAvatar (avatarName color : string) : Avatar :=
  let img := ImageSquare color in
  {| a_name := avatarName;
     a_frames := ∅;
     a_images := Some (<["north" := [img; img; img]]>
                       (<["south" := [img; img; img]]>
                       (<["east" := [img; img; img]]>
                       (<["west" := [img; img; img]]> ∅)))) |}.

Definition createNPCAvatars (g : GameClient) : GameClient :=
  set_npcAvatars (fun m =>
    <["pet" := npcAvatar "pet" "#45B7D1"]>
    (<["companion" := npcAvatar "companion" "#4ECDC4"]>
    (<["guardian" := npcAvatar "guardian" "#FF6B6B"]> m))) g.

Definition newNPC (id name : string) (x y : R) (avatar : string)
    (followDistance : R) (now : Z) : NPC :=
  {| n_id := id; n_name := name; n_x := x; n_y := y; n_avatar := avatar;
     n_followDistance := followDistance;
     n_facing := south; n_isMoving := false; n_animationFrame := 0;
     n_lastUpdate := now |}.

Definition createNPCs (now : Z) (g : GameClient) : GameClient :=
  match myPlayer g with
  | None => g
  | Some p =>
      let g := createNPCAvatars g in
      set_npcs (fun m =>
        <["npc3" := newNPC "npc3" "Pet" (p_x p) (p_y p + 50) "pet" 80 now]>
        (<["npc2" := newNPC "npc2" "Companion" (p_x p + 50) (p_y p - 50) "companion" 150 now]>
        (<["npc1" := newNPC "npc1" "Guardian" (p_x p - 50) (p_y p - 50) "guardian" 100 now]> m))) g
  end.

(** ** Inbound messages and the handlers that may throw *)

(** A parsed inbound message.  A field that the JSON object lacks is
    [None] ([undefined] in the source); [m_action] is also [None] when the
    discriminator is not a string. *)
Record Message := mkMessage {
  m_action : option string;
  m_success : bool;
  m_playerId : option string;
  m_players : option (gmap string Player);
  m_avatars : option (gmap string Avatar);
  m_player : option Player;
  m_avatar : option Avatar;
  m_error : option string
}.

Inductive Exn := TypeError (what : string).

(** A handler runs on the client and either returns or throws; in both
    cases the writes it made so far stay. *)
Inductive Result (A : Type) :=
| Ok (a : A) (g : GameClient)
| Throw (e : Exn) (g : GameClient).
Arguments Ok {A} a g.
Arguments Throw {A} e g.

Definition M (A : Type) : Type := GameClient -> Result A.

#[export] Instance M_ret : MRet M := fun A a g => Ok a g.
#[export] Instance M_bind : MBind M := fun A B f m g =>
  match m g with
  | Ok a g' => f a g'
  | Throw e g' => Throw e g'
  end.

Definition throw {A} (e : Exn) : M A := fun g => Throw e g.
Definition modify (f : GameClient -> GameClient) : M unit := fun g => Ok tt (f g).
Definition gets {A} (f : GameClient -> A) : M A := fun g => Ok (f g) g.

Definition stateOf {A} (r : Result A) : GameClient :=
  match r with Ok _ g => g | Throw _ g => g end.

Definition threw {A} (r : Result A) : bool :=
  match r with Ok _ _ => false | Throw _ _ => true end.

(** [Object.entries(o)] and [o.field] throw a [TypeError] on [undefined]. *)
Definition entriesOf {A} (what : string) (o : option A) : M A :=
  match o with
  | Some m => mret m
  | None => throw (TypeError ("Cannot convert undefined or null to object: " ++ what))
  end.

Definition fieldOf {A} (what : string) (o : option A) : M A :=
  match o with
  | Some m => mret m
  | None => throw (TypeError ("Cannot read properties of undefined: " ++ what))
  end.

Definition loadImages (a : Avatar) : Avatar :=
  match a_images a with
  | Some _ => a
  | None => {| a_name := a_name a; a_frames := a_frames a;
               a_images := Some (fmap (map ImageSrc) (a_frames a)) |}
  end.

Definition loadAvatarImages (g : GameClient) : GameClient :=
  set_avatars (fmap loadImages) g.

(** The entry of [ps] whose key is strictly equal to [this.myPlayerId]. *)
Definition ownEntry (g : GameClient) (ps : gmap string Player) : option Player :=
  match myPlayerId g with
  | Some i => ps !! i
  | None => None
  end.

(** What reading [this.myPlayer.username] throws when [this.myPlayer] is
    [null]. *)
Definition nullUsername : Exn :=
  TypeError "Cannot read properties of null: this.myPlayer.username".

Definition handleJoinGameSuccess (message : Message) (now : Z) : M unit :=
  modify (set_myPlayerId (m_playerId message)) ;;
  ps ← entriesOf "message.players" (m_players message) ;
  modify (fun g =>
    let g' := set_players (fun old => ps ∪ old) g in
    match ownEntry g ps with
    | Some playerData => set_myPlayer (Some playerData) g'
    | None => g'
    end) ;;
  avs ← entriesOf "message.avatars" (m_avatars message) ;
  modify (set_avatars (fun old => avs ∪ old)) ;;
  modify loadAvatarImages ;;
  modify (createNPCs now) ;;
  modify updateViewport ;;
  me ← gets myPlayer ;
  match me with
  | None => throw nullUsername
  | Some _ => mret tt
  end.

Definition handlePlayerJoined (message : Message) : M unit :=
  p ← fieldOf "message.player.id" (m_player message) ;
  modify (set_players (<[p_id p := p]>)) ;;
  a ← fieldOf "message.avatar.name" (m_avatar message) ;
  modify (set_avatars (<[a_name a := a]>)) ;;
  modify loadAvatarImages.

Definition handlePlayersMoved (message : Message) : M unit :=
  ps ← entriesOf "message.players" (m_players message) ;
  modify (fun g =>
    let g' := set_players (fun old => ps ∪ old) g in
    match ownEntry g ps with
    | Some playerData => updateViewport (set_myPlayer (Some playerData) g')
    | None => g'
    end).

Definition handlePlayerLeft (message : Message) : M unit :=
  modify (fun g =>
    match m_playerId message with
    | Some i => set_players (delete i) g
    | None => g
    end).

Definition handleServerMessage (message : Message) (now : Z) : M unit :=
  match m_action message with
  | None => mret tt
  | Some a =>
      if (a =? "join_game")%string then
        if m_success message then handleJoinGameSuccess message now
        else mret tt
      else if (a =? "player_joined")%string then handlePlayerJoined message
      else if (a =? "players_moved")%string then handlePlayersMoved message
      else if (a =? "player_left")%string then handlePlayerLeft message
      else mret tt
  end.

(** [ws.onmessage]: whatever the handler throws is caught and logged. *)
Definition onmessage (message : Message) (now : Z) (g : GameClient) : GameClient :=
  stateOf (handleServerMessage message now g).

(** ** Connection life cycle *)

Definition reconnectBaseDelay : Z := 2000.

Definition attemptReconnect (g : GameClient) : GameClient :=
  if (reconnectAttempts g <? maxReconnectAttempts)%nat then
    let g := set_reconnectAttempts (S (reconnectAttempts g)) g in
    set_timers (fun l =>
      l ++ [mkTimer (reconnectBaseDelay * Z.of_nat (reconnectAttempts g)) false]) g
  else g.

(** [ctorThrows] tells whether [new WebSocket(...)] throws. *)
Definition connectToServer (ctorThrows : bool) (g : GameClient) : GameClient :=
  if ctorThrows then attemptReconnect g
  else set_ws (Some CONNECTING) g.

Definition joinGame (g : GameClient) : GameClient :=
  set_sent (fun l => l ++ [OutJoin "Crystal"]) g.

Definition onopen (g : GameClient) : GameClient :=
  joinGame (set_reconnectAttempts 0 g).

Definition onclose (g : GameClient) : GameClient := attemptReconnect g.

(** ** Input dispatcher *)

Definition isOpen (g : GameClient) : bool :=
  match ws g with Some OPEN => true | _ => false end.

Definition keyDirection (key : string) : option string :=
  if existsb (String.eqb key) ["ArrowUp"; "w"; "W"] then Some "up"
  else if existsb (String.eqb key) ["ArrowDown"; "s"; "S"] then Some "down"
  else if existsb (String.eqb key) ["ArrowLeft"; "a"; "A"] then Some "left"
  else if existsb (String.eqb key) ["ArrowRight"; "d"; "D"] then Some "right"
  else None.

Definition stopKeys : list string :=
  ["ArrowUp"; "ArrowDown"; "ArrowLeft"; "ArrowRight";
   "w"; "W"; "s"; "S"; "a"; "A"; "d"; "D"].

Definition sendMoveCommand (direction : string) (g : GameClient) : GameClient :=
  set_sent (fun l => l ++ [OutMove direction]) g.

Definition sendStopCommand (g : GameClient) : GameClient :=
  set_sent (fun l => l ++ [OutStop]) g.

Definition keydown (key : string) (g : GameClient) : GameClient :=
  if negb (isOpen g) then g
  else match keyDirection key with
       | Some direction => sendMoveCommand direction g
       | None => g
       end.

Definition keyup (key : string) (g : GameClient) : GameClient :=
  if negb (isOpen g) then g
  else if existsb (String.eqb key) stopKeys then sendStopCommand g
  else g.

(** ** The client as a transition system *)

(** The window is [w] by [h] when the page loads. *)
Definition setupCanvas (w h : R) (g : GameClient) : GameClient :=
  set_viewport {| v_x := v_x (viewport g); v_y := v_y (viewport g);
                  v_width := w; v_height := h |} g.

Definition onresize (w h : R) (g : GameClient) : GameClient :=
  updateViewport (setupCanvas w h g).

Definition blank : GameClient :=
  {| players := ∅; avatars := ∅; myPlayerId := None; myPlayer := None;
     npcs := ∅; npcAvatars := ∅;
     viewport := {| v_x := 0; v_y := 0; v_width := 0; v_height := 0 |};
     ws := None; reconnectAttempts := 0%nat; timers := []; sent := [] |}.

(** [new GameClient()]: the field initialisers, then [init]. *)
Definition constructor (w h : R) (ctorThrows : bool) : GameClient :=
  connectToServer ctorThrows (setupCanvas w h blank).

(** What the host can deliver to the client. *)
Inductive Event :=
| EvOpen
| EvClose
| EvError
| EvTimer (ctorThrows : bool)
| EvMessage (message : Message) (now : Z)
| EvGarbage
| EvFrame (now : Z)
| EvResize (w h : R)
| EvKeyDown (key : string)
| EvKeyUp (key : string).

(** Marks the oldest pending timer as fired; [None] when none is pending. *)
Fixpoint fireTimer (l : list Timer) : option (list Timer) :=
  match l with
  | [] => None
  | t :: r =>
      if t_fired t then cons t <$> fireTimer r
      else Some (mkTimer (t_delay t) true :: r)
  end.

(** One event; [None] when the host cannot deliver it in this state (a
    socket opens only while connecting, closes only once, delivers
    messages only while open; a timer fires only if one is pending). *)
Definition step (ev : Event) (g : GameClient) : option GameClient :=
  match ev with
  | EvOpen =>
      match ws g with
      | Some CONNECTING => Some (onopen (set_ws (Some OPEN) g))
      | _ => None
      end
  | EvClose =>
      match ws g with
      | Some CONNECTING | Some OPEN | Some CLOSING =>
          Some (onclose (set_ws (Some CLOSED) g))
      | _ => None
      end
  | EvError =>
      match ws g with
      | Some CONNECTING | Some OPEN => Some g
      | _ => None
      end
  | EvTimer ctorThrows =>
      match fireTimer (timers g) with
      | Some l => Some (connectToServer ctorThrows (set_timers (fun _ => l) g))
      | None => None
      end
  | EvMessage message now =>
      if isOpen g then Some (onmessage message now g) else None
  | EvGarbage =>
      if isOpen g then Some g else None
  | EvFrame now => Some (updateNPCs now g)
  | EvResize w h => Some (onresize w h g)
  | EvKeyDown key => Some (keydown key g)
  | EvKeyUp key => Some (keyup key g)
  end.

Fixpoint run (evs : list Event) (g : GameClient) : option GameClient :=
  match evs with
  | [] => Some g
  | ev :: rest =>
      match step ev g with
      | Some g' => run rest g'
      | None => None
      end
  end.

(** The states the client can be in. *)
Definition reachable (g : GameClient) : Prop :=
  exists w h ctorThrows evs, run evs (constructor w h ctorThrows) = Some g.

(** ** Predicates used in the statements *)

(** On one axis: the origin lies in [0, world - size], and is 0 when the
    world is smaller than the viewport. *)
Definition originInRange (size world origin : R) : Prop :=
  (size <= world -> 0 <= origin <= world - size) /\
  (world < size -> origin = 0).

Definition viewportClamped (g : GameClient) : Prop :=
  originInRange (v_width (viewport g)) worldWidth (v_x (viewport g)) /\
  originInRange (v_height (viewport g)) worldHeight (v_y (viewport g)).

(** The camera invariant: the origin is clamped, and it is still at the
    initial (0, 0) as long as no local player is known. *)
Definition cameraInv (g : GameClient) : Prop :=
  viewportClamped g /\
  (myPlayer g = None -> v_x (viewport g) = 0 /\ v_y (viewport g) = 0).

(** A position inside the world rectangle. *)
Definition inWorld (x y : R) : Prop :=
  0 <= x <= worldWidth /\ 0 <= y <= worldHeight.

(** A companion is due at [now] when the time gate of [updateNPCs] lets it
    through. *)
Definition due (now : Z) (npc : NPC) : Prop :=
  (updateInterval <= now - n_lastUpdate npc)%Z.

(** ** The session seen through its events *)

(** The part of the client that the connection life cycle reads and
    writes. *)
Definition sessionOf (g : GameClient) : option ReadyState * nat * list Timer :=
  (ws g, reconnectAttempts g, timers g).

Definition socketAlive (g : GameClient) : bool :=
  match ws g with
  | Some CONNECTING | Some OPEN | Some CLOSING => true
  | _ => false
  end.

Definition isSessionEvent (ev : Event) : bool :=
  match ev with
  | EvOpen | EvClose | EvTimer _ => true
  | _ => false
  end.

(** A reconnection attempt that fails: the pending timer fires, and either
    the socket cannot even be created, or it is created and closes without
    having opened. *)
Definition failedAttempt (ctorThrows : bool) : list Event :=
  if ctorThrows then [EvTimer true] else [EvTimer false; EvClose].

(** Timers [from], [from + 1], ... of a reconnection episode, all fired. *)
Definition firedTimers (from count : nat) : list Timer :=
  map (fun k => mkTimer (reconnectBaseDelay * Z.of_nat k) true) (seq from count).

(** The client waits for its [k]-th reconnection attempt: the socket is
    closed, the attempts before have fired, the [k]-th timer is pending.
    [base] holds the timers of earlier episodes. *)
Definition waiting (k : nat) (base : list Timer) (g : GameClient) : Prop :=
  ws g = Some CLOSED /\
  reconnectAttempts g = k /\
  timers g = base ++ firedTimers 1 (k - 1)
                  ++ [mkTimer (reconnectBaseDelay * Z.of_nat k) false].

(** The permanent disconnected state: the socket is closed, the budget is
    used up and no timer is pending. *)
Definition gaveUp (g : GameClient) : Prop :=
  ws g = Some CLOSED /\
  reconnectAttempts g = maxReconnectAttempts /\
  fireTimer (timers g) = None.

(** The number of transport failures since the last successful open. *)
Fixpoint failuresSinceOpen (acc : nat) (evs : list Event) : nat :=
  match evs with
  | [] => acc
  | ev :: rest =>
      failuresSinceOpen
        (match ev with
         | EvOpen => 0%nat
         | EvClose | EvTimer true => S acc
         | _ => acc
         end) rest
  end.

(** At most one timer is pending, none while a socket is alive, and the
    counter is 0 while the socket is open. *)
Definition sessionInv (g : GameClient) : Prop :=
  (socketAlive g = true -> fireTimer (timers g) = None) /\
  (forall l, fireTimer (timers g) = Some l -> fireTimer l = None) /\
  (ws g = Some OPEN -> reconnectAttempts g = 0%nat).

Definition knownActions : list string :=
  ["join_game"; "player_joined"; "players_moved"; "player_left"].

(** A handler preserves [I] when the state it leaves, on return or on a
    throw, satisfies [I] whenever the state it started from does. *)
Definition preserves (I : GameClient -> Prop) {A} (m : M A) : Prop :=
  forall g, I g -> I (stateOf (m g)).

(** ** Example data *)

Definition crystal (x y : R) : Player :=
  {| p_id := "p1"; p_username := "Crystal"; p_x := x; p_y := y;
     p_facing := south; p_animationFrame := 0; p_avatar := "hero" |}.

Definition guardian (x y : R) (lastUpdate : Z) : NPC :=
  newNPC "npc1" "Guardian" x y "guardian" 100 lastUpdate.

(** A client in an 800 by 600 window whose first connection has just
    opened. *)
Definition freshlyOpen : GameClient :=
  onopen (set_ws (Some OPEN) (constructor 800 600 false)).

(** An inbound message with only a discriminator. *)
Definition bareMessage (action : string) : Message :=
  {| m_action := Some action; m_success := false; m_playerId := None;
     m_players := None; m_avatars := None; m_player := None; m_avatar := None;
     m_error := None |}.

(** A join acknowledgement for [playerId] with the given players and no
    avatars. *)
Definition joinAck (playerId : string) (ps : gmap string Player) : Message :=
  {| m_action := Some "join_game"; m_success := true; m_playerId := Some playerId;
     m_players := Some ps; m_avatars := Some ∅; m_player := None; m_avatar := None;
     m_error := None |}.

(** A batched move that carries one player. *)
Definition movedTo (playerId : string) (p : Player) : Message :=
  {| m_action := Some "players_moved"; m_success := false; m_playerId := None;
     m_players := Some {[ playerId := p ]}; m_avatars := None;
     m_player := None; m_avatar := None; m_error := None |}.

(** The same client after the server acknowledged the join, at time 0, of
    player "p1" at ([jx], [jy]). *)
Definition joinedAt (jx jy : R) : GameClient :=
  onmessage (joinAck "p1" {[ "p1" := crystal jx jy ]}) 0 freshlyOpen.

(** ... and after the server then moved the player to ([mx], [my]). *)
Definition scenario (jx jy mx my : R) : GameClient :=
  onmessage (movedTo "p1" (crystal mx my)) 50 (joinedAt jx jy).

(** The follow distances that [createNPCs] gives out. *)
Definition createdFollowDistance (npc : NPC) : Prop :=
  n_followDistance npc = 100 \/ n_followDistance npc = 150 \/ n_followDistance npc = 80.

Definition companionsInv (g : GameClient) : Prop :=
  forall i npc, npcs g !! i = Some npc -> createdFollowDistance npc.

(** ** Rendering: what one entity puts on the canvas *)

(** The calls on the 2D context that the per-entity drawing makes. *)
Inductive CanvasOp :=
| Save
| Restore
| Scale (sx sy : R)
| DrawImage (img : Image) (x y w h : R)
| SetFillStyle (style : string)
| SetStrokeStyle (style : string)
| SetLineWidth (w : R)
| SetFont (font : string)
| SetTextAlign (align : string)
| StrokeText (text : string) (x y : R)
| FillText (text : string) (x y : R).

(** The key under which the frames of a facing are stored. *)
Definition facingName (f : Facing) : string :=
  match f with
  | north => "north"
  | south => "south"
  | east => "east"
  | west => "west"
  end.

(** The bounding check of [drawPlayer] and [drawNPC]: more than 50 pixels
    outside the viewport on some side. *)
Definition offScreen (g : GameClient) (screenPos : Pos) : bool :=
  if Rlt_dec (pos_x screenPos) (-50) then true
  else if Rgt_dec (pos_x screenPos) (v_width (viewport g) + 50) then true
  else if Rlt_dec (pos_y screenPos) (-50) then true
  else if Rgt_dec (pos_y screenPos) (v_height (viewport g) + 50) then true
  else false.

(** [isVisible] as the debug panel computes it for a companion. *)
Definition debugIsVisible (g : GameClient) (npc : NPC) : bool :=
  let screenPos := worldToScreen g (n_x npc) (n_y npc) in
  if Rge_dec (pos_x screenPos) (-50) then
    if Rle_dec (pos_x screenPos) (v_width (viewport g) + 50) then
      if Rge_dec (pos_y screenPos) (-50) then
        if Rle_dec (pos_y screenPos) (v_height (viewport g) + 50) then true
        else false
      else false
    else false
  else false.

(** The frame that [images[direction][frameIndex]] resolves to. *)
Definition frameOf (images : gmap string (list Image)) (f : Facing) (frameIndex : nat)
    : option Image :=
  match images !! facingName f with
  | Some frames => frames !! frameIndex
  | None => None
  end.

(** The sprite itself: scaled to [avatarSize] wide, centred on the screen
    position, mirrored for the west facing.  [dims] gives the intrinsic
    width and height of a decoded image. *)
Definition drawSprite (dims : Image -> R * R) (avatarSize : R) (f : Facing)
    (img : Image) (screenPos : Pos) : list CanvasOp :=
  let aspectRatio := fst (dims img) / snd (dims img) in
  let width := avatarSize in
  let height := avatarSize / aspectRatio in
  let x := pos_x screenPos - width / 2 in
  let y := pos_y screenPos - height / 2 in
  match f with
  | west => [Save; Scale (-1) 1; DrawImage img (- x - width) y width height; Restore]
  | _ => [DrawImage img x y width height]
  end.

Definition drawPlayerLabel (player : Player) (screenPos : Pos) : list CanvasOp :=
  let labelY := pos_y screenPos - 20 in
  [Save; SetFillStyle "white"; SetStrokeStyle "black"; SetLineWidth 2;
   SetFont "12px Arial"; SetTextAlign "center";
   StrokeText (p_username player) (pos_x screenPos) labelY;
   FillText (p_username player) (pos_x screenPos) labelY;
   Restore].

Definition drawPlayer (dims : Image -> R * R) (g : GameClient) (player : Player)
    : list CanvasOp :=
  match avatars g !! p_avatar player with
  | None => []
  | Some avatar =>
      match a_images avatar with
      | None => []
      | Some images =>
          let screenPos := worldToScreen g (p_x player) (p_y player) in
          if offScreen g screenPos then []
          else
            (match frameOf images (p_facing player) (p_animationFrame player) with
             | Some img => drawSprite dims 32 (p_facing player) img screenPos
             | None => []
             end) ++ drawPlayerLabel player screenPos
      end
  end.

Definition drawNPCLabel (npc : NPC) (screenPos : Pos) : list CanvasOp :=
  let labelY := pos_y screenPos - 25 in
  [Save; SetFillStyle "#FFD700"; SetStrokeStyle "black"; SetLineWidth 2;
   SetFont "10px Arial"; SetTextAlign "center";
   StrokeText (n_name npc) (pos_x screenPos) labelY;
   FillText (n_name npc) (pos_x screenPos) labelY;
   Restore].

Definition drawNPC (dims : Image -> R * R) (g : GameClient) (npc : NPC)
    : list CanvasOp :=
  match npcAvatars g !! n_avatar npc with
  | None => []
  | Some avatar =>
      match a_images avatar with
      | None => []
      | Some images =>
          let screenPos := worldToScreen g (n_x npc) (n_y npc) in
          if offScreen g screenPos then []
          else
            (match frameOf images (n_facing npc) (n_animationFrame npc) with
             | Some img => drawSprite dims 28 (n_facing npc) img screenPos
             | None => []
             end) ++ drawNPCLabel npc screenPos
      end
  end.

(** The depth of [Save]s still open after [ops], started at [depth];
    [None] when a [Restore] has nothing to close or when the transform or
    a style is changed outside of every [Save] ... [Restore] pair. *)
Fixpoint depthAfter (depth : nat) (ops : list CanvasOp) : option nat :=
  match ops with
  | [] => Some depth
  | Save :: rest => depthAfter (S depth) rest
  | Restore :: rest =>
      match depth with
      | O => None
      | S d => depthAfter d rest
      end
  | DrawImage _ _ _ _ _ :: rest
  | StrokeText _ _ _ :: rest
  | FillText _ _ _ :: rest => depthAfter depth rest
  | _ :: rest =>
      match depth with
      | O => None
      | S _ => depthAfter depth rest
      end
  end.

(** ** Counting what was sent and scheduled *)

Definition isJoin (m : Outbound) : bool :=
  match m with OutJoin _ => true | _ => false end.

Definition isOpenEvent (ev : Event) : bool :=
  match ev with EvOpen => true | _ => false end.

Definition countOpens (evs : list Event) : nat :=
  length (List.filter isOpenEvent evs).

(** The timers that have not fired yet. *)
Definition pendingTimers (l : list Timer) : list Timer :=
  List.filter (fun t => negb (t_fired t)) l.

(** The identifiers and avatar names that [createNPCs] uses. *)
Definition companionIds : gset string := {[ "npc1"; "npc2"; "npc3" ]}.

Definition companionAvatars : list string := ["guardian"; "companion"; "pet"].

(** What one event appends to the messages sent. *)
Definition sentBy (ev : Event) (g : GameClient) : list Outbound :=
  match ev with
  | EvOpen => [OutJoin "Crystal"]
  | EvKeyDown key =>
      if isOpen g then
        match keyDirection key with Some d => [OutMove d] | None => [] end
      else []
  | EvKeyUp key =>
      if isOpen g then
        if existsb (String.eqb key) stopKeys then [OutStop] else []
      else []
  | _ => []
  end.


(** A delay of the linear backoff: [k] times the base delay for an
    attempt number [k] within the budget. *)
Definition isBackoffDelay (d : Z) : Prop :=
  exists k : nat, (1 <= k <= maxReconnectAttempts)%nat /\
                  d = (reconnectBaseDelay * Z.of_nat k)%Z.

Definition budgetInv (g : GameClient) : Prop :=
  (reconnectAttempts g <= maxReconnectAttempts)%nat /\
  Forall isBackoffDelay (map t_delay (timers g)).

(** More example messages. *)
Definition leftMessage (playerId : string) : Message :=
  {| m_action := Some "player_left"; m_success := false; m_playerId := Some playerId;
     m_players := None; m_avatars := None; m_player := None; m_avatar := None;
     m_error := None |}.

Definition joinedMessage (p : option Player) (a : option Avatar) : Message :=
  {| m_action := Some "player_joined"; m_success := false; m_playerId := None;
     m_players := None; m_avatars := None; m_player := p; m_avatar := a;
     m_error := None |}.

Definition bob : Player :=
  {| p_id := "p2"; p_username := "Bob"; p_x := 300; p_y := 400;
     p_facing := west; p_animationFrame := 1; p_avatar := "knight" |}.

Definition knight : Avatar :=
  {| a_name := "knight";
     a_frames := {[ "south" := ["s0"; "s1"; "s2"] ]};
     a_images := None |}.

(** Either no companion exists, or the local player is known and the
    companions are exactly the three of [createNPCs]. *)
Definition crewInv (g : GameClient) : Prop :=
  npcs g = ∅ \/ (is_Some (myPlayer g) /\ dom (npcs g) = companionIds).


(** Every companion has a frame number below 3 and an avatar among the
    squares that [createNPCAvatars] paints. *)
Definition spriteInv (g : GameClient) : Prop :=
  forall i npc, npcs g !! i = Some npc ->
    (n_animationFrame npc < 3)%nat /\
    exists color, npcAvatars g !! n_avatar npc = Some (npcAvatar (n_avatar npc) color).

Definition hero : Avatar :=
  {| a_name := "hero";
     a_frames := {[ "south" := ["h0"; "h1"; "h2"] ]};
     a_images := None |}.

(** The joined client after a second player arrived whose avatar is the
    one of the local player. *)
Definition withHero : GameClient :=
  onmessage (joinedMessage (Some bob) (Some hero)) 0 (joinedAt 100 100).

(** The loop body at each of the given times in turn, the local player
    staying where it is. *)
Definition ticksAt (p : Player) (times : list Z) (npc : NPC) : NPC :=
  fold_left (fun c now => tickNPC p now c) times npc.

(** ** The camera on binary64 doubles *)










(** ** Avatar definitions whose frames may be missing *)

(** An avatar definition as it may arrive: the handlers above take it as
    an [Avatar], which carries its frames; here [frames] may be
    [undefined]. *)
Record RawAvatar := mkRawAvatar {
  r_name : string;
  r_frames : option (gmap string (list string));
  r_images : option (gmap string (list Image))
}.

Definition rawOf (a : Avatar) : RawAvatar :=
  {| r_name := a_name a; r_frames := Some (a_frames a); r_images := a_images a |}.

(** The body of the loop of [loadAvatarImages] for one avatar: [inl] when
    it completes, [inr] when [Object.entries(avatarData.frames)] throws,
    which is after [avatarData.images = {}]. *)
Definition loadImagesRaw (a : RawAvatar) : RawAvatar + RawAvatar :=
  match r_images a with
  | Some _ => inl a
  | None =>
      match r_frames a with
      | Some frames =>
          inl {| r_name := r_name a; r_frames := r_frames a;
                 r_images := Some (fmap (map ImageSrc) frames) |}
      | None =>
          inr {| r_name := r_name a; r_frames := r_frames a;
                 r_images := Some ∅ |}
      end
  end.

(** [loadAvatarImages] on the entries of the [Map] in the order of
    insertion, which is the order of the loop: the entries after the loop,
    and whether it threw. *)
Fixpoint loadAvatarImagesRaw (store : list (string * RawAvatar))
    : list (string * RawAvatar) * bool :=
  match store with
  | [] => ([], false)
  | (avatarName, avatarData) :: rest =>
      match loadImagesRaw avatarData with
      | inl loaded =>
          let (rest', threw) := loadAvatarImagesRaw rest in
          ((avatarName, loaded) :: rest', threw)
      | inr emptied => ((avatarName, emptied) :: rest, true)
      end
  end.

(** The loop body completes on this avatar: it has images or frames. *)
Definition loadable (a : RawAvatar) : bool :=
  match r_images a, r_frames a with
  | None, None => false
  | _, _ => true
  end.

(** A paladin whose definition arrives without frames. *)
Definition paladin : RawAvatar :=
  {| r_name := "paladin"; r_frames := None; r_images := None |}.

(** * Properties *)

(** ** Generic facts about handlers and runs *)

Section Preservation.
Variable I : GameClient -> Prop.

Lemma preserves_ret {A} (a : A) : preserves I (mret a).
Proof using Type. intros g Hg. exact Hg. Qed.

Lemma preserves_throw {A} (e : Exn) : preserves I (@throw A e).
Proof using Type. intros g Hg. exact Hg. Qed.

Lemma preserves_gets {A} (f : GameClient -> A) : preserves I (gets f).
Proof using Type. intros g Hg. exact Hg. Qed.

Lemma preserves_modify (f : GameClient -> GameClient) :
  (forall g, I g -> I (f g)) -> preserves I (modify f).
Proof using Type. intros Hf g Hg. apply Hf, Hg. Qed.

Lemma preserves_bind {A B} (m : M A) (f : A -> M B) :
  preserves I m -> (forall a, preserves I (f a)) -> preserves I (m ≫= f).
Proof using Type.
  intros Hm Hf g Hg. specialize (Hm g Hg).
  unfold mbind, M_bind. destruct (m g) as [a g'|e g']; simpl in *.
  - apply Hf, Hm.
  - exact Hm.
Qed.

Lemma preserves_entriesOf {A} what (o : option A) : preserves I (entriesOf what o).
Proof using Type. destruct o; [apply preserves_ret | apply preserves_throw]. Qed.

Lemma preserves_fieldOf {A} what (o : option A) : preserves I (fieldOf what o).
Proof using Type. destruct o; [apply preserves_ret | apply preserves_throw]. Qed.

(** What every write of the message handlers must respect for the
    dispatcher to preserve [I]. *)
Hypothesis I_myPlayerId : forall i g, I g -> I (set_myPlayerId i g).
Hypothesis I_players : forall f g, I g -> I (set_players f g).
Hypothesis I_myPlayer : forall p g, I g -> I (set_myPlayer (Some p) g).
Hypothesis I_avatars : forall f g, I g -> I (set_avatars f g).
Hypothesis I_createNPCs : forall now g, I g -> I (createNPCs now g).
Hypothesis I_updateViewport : forall g, I g -> I (updateViewport g).

Lemma preserves_handleJoinGameSuccess message now :
  preserves I (handleJoinGameSuccess message now).
Proof using I_myPlayerId I_players I_myPlayer I_avatars I_createNPCs
  I_updateViewport.
  unfold handleJoinGameSuccess.
  apply preserves_bind; [apply preserves_modify; auto | intros _].
  apply preserves_bind; [apply preserves_entriesOf | intros ps].
  apply preserves_bind; [apply preserves_modify | intros _].
  { intros g Hg. destruct (ownEntry g ps); auto. }
  apply preserves_bind; [apply preserves_entriesOf | intros avs].
  apply preserves_bind; [apply preserves_modify; auto | intros _].
  apply preserves_bind; [apply preserves_modify | intros _].
  { intros g Hg. unfold loadAvatarImages. auto. }
  apply preserves_bind; [apply preserves_modify, I_createNPCs | intros _].
  apply preserves_bind; [apply preserves_modify; auto | intros _].
  apply preserves_bind; [apply preserves_gets | intros [p|]].
  - apply preserves_ret.
  - apply preserves_throw.
Qed.

Lemma preserves_handlePlayerJoined message : preserves I (handlePlayerJoined message).
Proof using I_players I_avatars.
  unfold handlePlayerJoined.
  apply preserves_bind; [apply preserves_fieldOf | intros p].
  apply preserves_bind; [apply preserves_modify; auto | intros _].
  apply preserves_bind; [apply preserves_fieldOf | intros a].
  apply preserves_bind; [apply preserves_modify; auto | intros _].
  apply preserves_modify. intros g Hg. unfold loadAvatarImages. auto.
Qed.

Lemma preserves_handlePlayersMoved message : preserves I (handlePlayersMoved message).
Proof using I_players I_myPlayer I_updateViewport.
  unfold handlePlayersMoved.
  apply preserves_bind; [apply preserves_entriesOf | intros ps].
  apply preserves_modify. intros g Hg. destruct (ownEntry g ps); auto.
Qed.

Lemma preserves_handlePlayerLeft message : preserves I (handlePlayerLeft message).
Proof using I_players.
  unfold handlePlayerLeft. apply preserves_modify.
  intros g Hg. destruct (m_playerId message); auto.
Qed.

Lemma preserves_handleServerMessage message now :
  preserves I (handleServerMessage message now).
Proof using I_myPlayerId I_players I_myPlayer I_avatars I_createNPCs
  I_updateViewport.
  unfold handleServerMessage.
  destruct (m_action message) as [a|]; [|apply preserves_ret].
  destruct (a =? "join_game")%string.
  { destruct (m_success message);
      [apply preserves_handleJoinGameSuccess | apply preserves_ret]. }
  destruct (a =? "player_joined")%string; [apply preserves_handlePlayerJoined|].
  destruct (a =? "players_moved")%string; [apply preserves_handlePlayersMoved|].
  destruct (a =? "player_left")%string; [apply preserves_handlePlayerLeft|].
  apply preserves_ret.
Qed.

Lemma I_onmessage message now g : I g -> I (onmessage message now g).
Proof using I_myPlayerId I_players I_myPlayer I_avatars I_createNPCs
  I_updateViewport.
  apply preserves_handleServerMessage.
Qed.
End Preservation.

Lemma run_invariant (I : GameClient -> Prop) :
  (forall ev g g', step ev g = Some g' -> I g -> I g') ->
  forall evs g g', run evs g = Some g' -> I g -> I g'.
Proof.
  intros Hstep evs. induction evs as [|ev rest IH]; intros g g' Hrun Hg; simpl in Hrun.
  - injection Hrun as <-. exact Hg.
  - destruct (step ev g) as [g1|] eqn:Hs; [|discriminate].
    eapply IH; [exact Hrun|]. eapply Hstep; eauto.
Qed.

Lemma run_cons ev evs g :
  run (ev :: evs) g = match step ev g with Some g' => run evs g' | None => None end.
Proof. reflexivity. Qed.

Lemma run_app evs1 evs2 g :
  run (evs1 ++ evs2) g = match run evs1 g with Some g' => run evs2 g' | None => None end.
Proof.
  revert g. induction evs1 as [|ev rest IH]; intros g; simpl; [reflexivity|].
  destruct (step ev g); [apply IH | reflexivity].
Qed.

Lemma reachable_constructor w h ctorThrows : reachable (constructor w h ctorThrows).
Proof. exists w, h, ctorThrows, []. reflexivity. Qed.

Lemma reachable_step ev g g' : reachable g -> step ev g = Some g' -> reachable g'.
Proof.
  intros (w & h & b & evs & Hrun) Hstep.
  exists w, h, b, (evs ++ [ev]). rewrite run_app, Hrun. simpl. rewrite Hstep. reflexivity.
Qed.

(** ** What leaves the session alone *)

Lemma sessionOf_updateViewport g : sessionOf (updateViewport g) = sessionOf g.
Proof. unfold updateViewport. destruct (myPlayer g); reflexivity. Qed.

Lemma sessionOf_createNPCs now g : sessionOf (createNPCs now g) = sessionOf g.
Proof. unfold createNPCs. destruct (myPlayer g); reflexivity. Qed.

Lemma sessionOf_updateNPCs now g : sessionOf (updateNPCs now g) = sessionOf g.
Proof.
  unfold updateNPCs. destruct (myPlayer g); [|reflexivity].
  destruct (bool_decide _); reflexivity.
Qed.

Lemma sessionOf_onmessage message now g :
  sessionOf (onmessage message now g) = sessionOf g.
Proof.
  apply (I_onmessage (fun g' => sessionOf g' = sessionOf g)); try reflexivity;
    try (intros; assumption).
  - intros now' g' Hg'. rewrite sessionOf_createNPCs. exact Hg'.
  - intros g' Hg'. rewrite sessionOf_updateViewport. exact Hg'.
Qed.

(** Messages, frames, resizes and keys leave the session alone. *)
Lemma step_sessionOf ev g g' :
  isSessionEvent ev = false -> step ev g = Some g' -> sessionOf g' = sessionOf g.
Proof.
  intros Hev Hs. destruct ev; try discriminate; simpl in Hs.
  - destruct (ws g) as [[]|]; inversion Hs; reflexivity.
  - destruct (isOpen g); inversion Hs. apply sessionOf_onmessage.
  - destruct (isOpen g); inversion Hs; reflexivity.
  - inversion Hs. apply sessionOf_updateNPCs.
  - inversion Hs. unfold onresize. rewrite sessionOf_updateViewport. reflexivity.
  - inversion Hs. unfold keydown.
    destruct (negb _); [reflexivity|]. destruct (keyDirection key); reflexivity.
  - inversion Hs. unfold keyup.
    destruct (negb _); [reflexivity|]. destruct (existsb _ _); reflexivity.
Qed.

Lemma sessionOf_fields g g' :
  sessionOf g' = sessionOf g ->
  ws g' = ws g /\ reconnectAttempts g' = reconnectAttempts g /\ timers g' = timers g.
Proof. unfold sessionOf. intros H. injection H as -> -> ->. repeat split. Qed.

(** ** Joining and moving: what the two main handlers leave behind *)

Lemma myPlayer_updateViewport g : myPlayer (updateViewport g) = myPlayer g.
Proof. unfold updateViewport. destruct (myPlayer g) eqn:Hp; simpl; exact Hp. Qed.

Lemma npcs_updateViewport g : npcs (updateViewport g) = npcs g.
Proof. unfold updateViewport. destruct (myPlayer g); reflexivity. Qed.

Lemma myPlayerId_updateViewport g : myPlayerId (updateViewport g) = myPlayerId g.
Proof. unfold updateViewport. destruct (myPlayer g); reflexivity. Qed.

Lemma myPlayer_createNPCs now g : myPlayer (createNPCs now g) = myPlayer g.
Proof. unfold createNPCs. destruct (myPlayer g) eqn:Hp; simpl; exact Hp. Qed.

Lemma myPlayerId_createNPCs now g : myPlayerId (createNPCs now g) = myPlayerId g.
Proof. unfold createNPCs. destruct (myPlayer g); reflexivity. Qed.

(** A join acknowledgement that carries the entry of the acknowledged
    player: the handler runs to its end. *)
Lemma onmessage_join_success message now g i ps avs pd :
  m_action message = Some "join_game" ->
  m_success message = true ->
  m_playerId message = Some i ->
  m_players message = Some ps ->
  m_avatars message = Some avs ->
  ps !! i = Some pd ->
  onmessage message now g
  = updateViewport (createNPCs now (loadAvatarImages
      (set_avatars (fun old => avs ∪ old)
        (set_myPlayer (Some pd)
          (set_players (fun old => ps ∪ old) (set_myPlayerId (Some i) g)))))).
Proof.
  intros Hact Hsucc Hid Hps Havs Hown.
  unfold onmessage, handleServerMessage. rewrite Hact. simpl. rewrite Hsucc.
  unfold handleJoinGameSuccess, mbind, M_bind, modify, gets.
  rewrite Hps, Havs, Hid. simpl.
  unfold ownEntry. simpl. rewrite Hown. simpl. reflexivity.
Qed.

(** A batched move that carries the local player. *)
Lemma onmessage_players_moved message now g i ps pd :
  m_action message = Some "players_moved" ->
  m_players message = Some ps ->
  myPlayerId g = Some i ->
  ps !! i = Some pd ->
  onmessage message now g
  = updateViewport (set_myPlayer (Some pd) (set_players (fun old => ps ∪ old) g)).
Proof.
  intros Hact Hps Hid Hown.
  unfold onmessage, handleServerMessage. rewrite Hact. simpl.
  unfold handlePlayersMoved, mbind, M_bind, modify. rewrite Hps. simpl.
  unfold ownEntry. rewrite Hid, Hown. reflexivity.
Qed.

Lemma isOpen_onmessage message now g : isOpen (onmessage message now g) = isOpen g.
Proof.
  pose proof (sessionOf_onmessage message now g) as Heq.
  apply sessionOf_fields in Heq. destruct Heq as (Hw & _ & _).
  unfold isOpen. rewrite Hw. reflexivity.
Qed.

Lemma reachable_onmessage message now g :
  reachable g -> isOpen g = true -> reachable (onmessage message now g).
Proof.
  intros Hg Hopen. apply (reachable_step (EvMessage message now) g _ Hg).
  simpl. rewrite Hopen. reflexivity.
Qed.

Lemma reachable_freshlyOpen : reachable freshlyOpen.
Proof. exists 800, 600, false, [EvOpen]. reflexivity. Qed.

Lemma joinedAt_eq jx jy :
  joinedAt jx jy
  = updateViewport (createNPCs 0 (loadAvatarImages
      (set_avatars (fun old => ∅ ∪ old)
        (set_myPlayer (Some (crystal jx jy))
          (set_players (fun old => {[ "p1" := crystal jx jy ]} ∪ old)
            (set_myPlayerId (Some "p1") freshlyOpen)))))).
Proof.
  unfold joinedAt.
  apply onmessage_join_success; first [reflexivity | apply lookup_singleton_eq].
Qed.

Lemma joinedAt_myPlayerId jx jy : myPlayerId (joinedAt jx jy) = Some "p1".
Proof.
  rewrite joinedAt_eq, myPlayerId_updateViewport, myPlayerId_createNPCs. reflexivity.
Qed.

Lemma joinedAt_guardian jx jy :
  npcs (joinedAt jx jy) !! "npc1" = Some (guardian (jx - 50) (jy - 50) 0).
Proof.
  rewrite joinedAt_eq, npcs_updateViewport. unfold createNPCs. simpl.
  rewrite lookup_insert_ne by discriminate.
  rewrite lookup_insert_ne by discriminate.
  apply lookup_insert_eq.
Qed.

Lemma reachable_joinedAt jx jy : reachable (joinedAt jx jy).
Proof. apply reachable_onmessage; [apply reachable_freshlyOpen | reflexivity]. Qed.

Lemma scenario_eq jx jy mx my :
  scenario jx jy mx my
  = updateViewport (set_myPlayer (Some (crystal mx my))
      (set_players (fun old => {[ "p1" := crystal mx my ]} ∪ old) (joinedAt jx jy))).
Proof.
  unfold scenario.
  apply (onmessage_players_moved _ _ _ "p1");
    first [apply joinedAt_myPlayerId | reflexivity | apply lookup_singleton_eq].
Qed.

Lemma scenario_myPlayer jx jy mx my :
  myPlayer (scenario jx jy mx my) = Some (crystal mx my).
Proof. rewrite scenario_eq, myPlayer_updateViewport. reflexivity. Qed.

Lemma scenario_guardian jx jy mx my :
  npcs (scenario jx jy mx my) !! "npc1" = Some (guardian (jx - 50) (jy - 50) 0).
Proof. rewrite scenario_eq, npcs_updateViewport. simpl. apply joinedAt_guardian. Qed.

Lemma reachable_scenario jx jy mx my : reachable (scenario jx jy mx my).
Proof.
  apply reachable_onmessage; [apply reachable_joinedAt|].
  unfold joinedAt. rewrite isOpen_onmessage. reflexivity.
Qed.

Lemma createNPCs_no_player now g : myPlayer g = None -> createNPCs now g = g.
Proof. intros Hp. unfold createNPCs. rewrite Hp. reflexivity. Qed.

Lemma updateViewport_no_player g : myPlayer g = None -> updateViewport g = g.
Proof. intros Hp. unfold updateViewport. rewrite Hp. reflexivity. Qed.

(** ** Camera *)

(** In exact arithmetic, converting to screen coordinates and back gives
    the position again, for every world position and every viewport
    origin.  On doubles the subtraction and the addition round; what is
    left of the identity there is the subject of the next part. *)
Lemma screenToWorld_worldToScreen (g : GameClient) (worldX worldY : R) :
  screenToWorld g (pos_x (worldToScreen g worldX worldY))
                  (pos_y (worldToScreen g worldX worldY))
  = {| pos_x := worldX; pos_y := worldY |}.
Proof.
  unfold screenToWorld, worldToScreen; simpl. f_equal; lra.
Qed.

Lemma worldToScreen_screenToWorld (g : GameClient) (screenX screenY : R) :
  worldToScreen g (pos_x (screenToWorld g screenX screenY))
                  (pos_y (screenToWorld g screenX screenY))
  = {| pos_x := screenX; pos_y := screenY |}.
Proof.
  unfold screenToWorld, worldToScreen; simpl. f_equal; lra.
Qed.

Lemma clampTo_range (hi v : R) : 0 <= hi -> 0 <= clampTo hi v <= hi.
Proof.
  intros Hhi. unfold clampTo. split.
  - apply Rmax_l.
  - apply Rmax_lub; [exact Hhi | apply Rmin_r].
Qed.

Lemma clampTo_empty (hi v : R) : hi < 0 -> clampTo hi v = 0.
Proof.
  intros Hhi. unfold clampTo. apply Rmax_left.
  pose proof (Rmin_r v hi). lra.
Qed.

Lemma clampTo_id (hi v : R) : 0 <= v <= hi -> clampTo hi v = v.
Proof.
  intros [H0 H1]. unfold clampTo.
  rewrite Rmin_left by exact H1. apply Rmax_right, H0.
Qed.

Lemma clampTo_originInRange (size world v : R) :
  originInRange size world (clampTo (world - size) v).
Proof.
  split.
  - intros Hle. apply clampTo_range. lra.
  - intros Hlt. apply clampTo_empty. lra.
Qed.

Lemma originInRange_zero (size world : R) : originInRange size world 0.
Proof. split; intros; lra. Qed.

Lemma updateViewport_clamped (g : GameClient) :
  is_Some (myPlayer g) -> viewportClamped (updateViewport g).
Proof.
  intros [p Hp]. unfold updateViewport, viewportClamped. rewrite Hp. simpl.
  split; apply clampTo_originInRange.
Qed.

Lemma cameraInv_updateViewport (g : GameClient) :
  cameraInv g -> cameraInv (updateViewport g).
Proof.
  intros [Hc H0]. destruct (myPlayer g) as [p|] eqn:Hp.
  - split; [apply updateViewport_clamped; rewrite Hp; eauto|].
    unfold updateViewport. rewrite Hp. simpl. rewrite Hp. discriminate.
  - unfold updateViewport. rewrite Hp. split; [exact Hc|].
    intros _. apply H0. reflexivity.
Qed.

Lemma cameraInv_setupCanvas (w h : R) (g : GameClient) :
  myPlayer g = None -> cameraInv g -> cameraInv (setupCanvas w h g).
Proof.
  intros Hp [_ H0]. destruct (H0 Hp) as [Hx Hy].
  split.
  - unfold viewportClamped, setupCanvas; simpl. rewrite Hx, Hy.
    split; apply originInRange_zero.
  - intros _. simpl. tauto.
Qed.

Lemma cameraInv_onresize (w h : R) (g : GameClient) :
  cameraInv g -> cameraInv (onresize w h g).
Proof.
  intros Hg. unfold onresize. destruct (myPlayer g) as [p|] eqn:Hp.
  - split.
    + apply updateViewport_clamped. simpl. rewrite Hp. eauto.
    + unfold updateViewport. simpl. rewrite Hp. simpl. rewrite Hp. discriminate.
  - apply cameraInv_updateViewport, cameraInv_setupCanvas; assumption.
Qed.

Lemma cameraInv_attemptReconnect (g : GameClient) :
  cameraInv g -> cameraInv (attemptReconnect g).
Proof.
  unfold attemptReconnect. destruct (_ <? _)%nat; trivial.
Qed.

Lemma cameraInv_createNPCs now g : cameraInv g -> cameraInv (createNPCs now g).
Proof. unfold createNPCs. destruct (myPlayer g) eqn:Hp; trivial. Qed.

Lemma cameraInv_updateNPCs now g : cameraInv g -> cameraInv (updateNPCs now g).
Proof.
  unfold updateNPCs. destruct (myPlayer g) eqn:Hp; trivial.
  destruct (bool_decide _); trivial.
Qed.

Lemma cameraInv_step ev g g' : step ev g = Some g' -> cameraInv g -> cameraInv g'.
Proof.
  intros Hs Hg. destruct ev; simpl in Hs.
  - destruct (ws g) as [[]|]; inversion Hs; subst; exact Hg.
  - destruct (ws g) as [[]|]; inversion Hs; subst;
      apply (cameraInv_attemptReconnect (set_ws (Some CLOSED) g)); exact Hg.
  - destruct (ws g) as [[]|]; inversion Hs; subst; exact Hg.
  - destruct (fireTimer (timers g)) as [l|]; inversion Hs; subst.
    destruct ctorThrows; simpl; [|exact Hg].
    apply (cameraInv_attemptReconnect (set_timers (fun _ => l) g)); exact Hg.
  - destruct (isOpen g); inversion Hs; subst.
    apply I_onmessage; trivial.
    + intros p g0 [Hc _]. split; [exact Hc | discriminate].
    + apply cameraInv_createNPCs.
    + apply cameraInv_updateViewport.
  - destruct (isOpen g); inversion Hs; subst; exact Hg.
  - inversion Hs; subst. apply cameraInv_updateNPCs, Hg.
  - inversion Hs; subst. apply cameraInv_onresize, Hg.
  - inversion Hs; subst. unfold keydown.
    destruct (negb _); [exact Hg|]. destruct (keyDirection key); exact Hg.
  - inversion Hs; subst. unfold keyup.
    destruct (negb _); [exact Hg|]. destruct (existsb _ _); exact Hg.
Qed.

Lemma cameraInv_constructor w h ctorThrows : cameraInv (constructor w h ctorThrows).
Proof.
  unfold constructor.
  assert (Hc : cameraInv (setupCanvas w h blank)).
  { split; [split; apply originInRange_zero | intros _; simpl; tauto]. }
  destruct ctorThrows; simpl; [apply cameraInv_attemptReconnect|]; exact Hc.
Qed.

Lemma reachable_cameraInv (g : GameClient) : reachable g -> cameraInv g.
Proof.
  intros (w & h & b & evs & Hrun).
  eapply run_invariant; [exact cameraInv_step | exact Hrun |].
  apply cameraInv_constructor.
Qed.

(** *** The round trip on doubles *)







(** C2: in every state the client can reach, the viewport origin lies on
    each axis within [0, worldSize - viewportSize], or at 0 where the
    world is smaller than the viewport, and a call of [updateViewport]
    leaves it so. *)
Theorem updateViewport_origin_in_range (g : GameClient) :
  reachable g -> viewportClamped g /\ viewportClamped (updateViewport g).
Proof.
  intros Hg. apply reachable_cameraInv in Hg. split.
  - apply Hg.
  - apply cameraInv_updateViewport, Hg.
Qed.

Lemma updateViewport_origin_in_range_witness :
  viewportClamped (joinedAt 100 100) /\
  viewportClamped (updateViewport (joinedAt 100 100)).
Proof.
  apply (updateViewport_origin_in_range (joinedAt 100 100)).
  apply reachable_joinedAt.
Defined.

(** ** Direction of the move: sine and cosine of [atan2] *)

Lemma sqrt_sum_squares_pos (x y : R) : x <> 0 \/ y <> 0 -> 0 < sqrt (x * x + y * y).
Proof.
  intros H. apply sqrt_lt_R0. destruct H; nra.
Qed.

Lemma sqrt_one_plus_ratio (x y : R) :
  x <> 0 -> sqrt (1 + (y / x)²) = sqrt (x * x + y * y) / Rabs x.
Proof.
  intros Hx.
  replace (1 + (y / x)²) with ((x * x + y * y) / x²) by (unfold Rsqr; field; exact Hx).
  rewrite sqrt_div_alt by (unfold Rsqr; nra).
  rewrite sqrt_Rsqr_abs. reflexivity.
Qed.

Lemma cos_sin_atan_ratio (x y : R) :
  x <> 0 ->
  cos (atan (y / x)) = Rabs x / sqrt (x * x + y * y) /\
  sin (atan (y / x)) = y / x * Rabs x / sqrt (x * x + y * y).
Proof.
  intros Hx.
  pose proof (sqrt_sum_squares_pos x y (or_introl Hx)) as Hd.
  pose proof (Rabs_pos_lt x Hx) as Ha.
  rewrite cos_atan, sin_atan, sqrt_one_plus_ratio by exact Hx.
  split; field; split; lra.
Qed.

Lemma cos_sin_atan2 (x y : R) :
  x <> 0 \/ y <> 0 ->
  cos (atan2 y x) = x / sqrt (x * x + y * y) /\
  sin (atan2 y x) = y / sqrt (x * x + y * y).
Proof.
  intros Hxy. pose proof (sqrt_sum_squares_pos x y Hxy) as Hd.
  unfold atan2.
  destruct (Rlt_dec 0 x) as [Hpos|Hnpos].
  - destruct (cos_sin_atan_ratio x y) as [Hc Hs]; [lra|].
    rewrite Hc, Hs, Rabs_right by lra. split; field; lra.
  - destruct (Rlt_dec x 0) as [Hneg|Hnneg].
    + destruct (cos_sin_atan_ratio x y) as [Hc Hs]; [lra|].
      rewrite Rabs_left in Hc, Hs by exact Hneg.
      destruct (Rle_dec 0 y).
      * rewrite neg_cos, neg_sin, Hc, Hs. split; field; lra.
      * rewrite cos_minus, sin_minus, cos_PI, sin_PI, Hc, Hs. split; field; lra.
    + assert (Hx : x = 0) by lra. subst x.
      assert (Hy : y <> 0) by (destruct Hxy; [lra | assumption]).
      replace (0 * 0 + y * y) with (y²) in * by (unfold Rsqr; ring).
      rewrite sqrt_Rsqr_abs in *.
      destruct (Rlt_dec 0 y) as [Hyp|Hynp].
      * rewrite cos_PI2, sin_PI2, Rabs_right by lra. split; field; lra.
      * destruct (Rlt_dec y 0) as [Hyn|]; [|lra].
        rewrite cos_neg, sin_neg, cos_PI2, sin_PI2, Rabs_left by lra.
        split; field; lra.
Qed.

(** ** One tick of a companion *)

Lemma clampTo_nonexpansive (hi c v : R) :
  0 <= c <= hi -> (c - clampTo hi v) * (c - clampTo hi v) <= (c - v) * (c - v).
Proof.
  intros [H0 H1]. unfold clampTo, Rmax, Rmin.
  destruct (Rle_dec v hi); destruct (Rle_dec 0 _); nra.
Qed.

Lemma tickNPC_far_x (p : Player) (now : Z) (npc : NPC) :
  n_followDistance npc < distanceTo p npc ->
  n_x (tickNPC p now npc)
  = clampTo worldWidth
      (n_x npc + cos (atan2 (p_y p - n_y npc) (p_x p - n_x npc)) * moveSpeed).
Proof.
  unfold distanceTo, tickNPC. intros Hfar.
  destruct (Rgt_dec _ _) as [_|Hn]; [reflexivity | exfalso; apply Hn; exact Hfar].
Qed.

Lemma tickNPC_far_y (p : Player) (now : Z) (npc : NPC) :
  n_followDistance npc < distanceTo p npc ->
  n_y (tickNPC p now npc)
  = clampTo worldHeight
      (n_y npc + sin (atan2 (p_y p - n_y npc) (p_x p - n_x npc)) * moveSpeed).
Proof.
  unfold distanceTo, tickNPC. intros Hfar.
  destruct (Rgt_dec _ _) as [_|Hn]; [reflexivity | exfalso; apply Hn; exact Hfar].
Qed.

Lemma tickNPC_far_facing (p : Player) (now : Z) (npc : NPC) :
  n_followDistance npc < distanceTo p npc ->
  n_facing (tickNPC p now npc)
  = if Rgt_dec (Rabs (p_x p - n_x npc)) (Rabs (p_y p - n_y npc))
    then (if Rgt_dec (p_x p - n_x npc) 0 then east else west)
    else (if Rgt_dec (p_y p - n_y npc) 0 then south else north).
Proof.
  unfold distanceTo, tickNPC. intros Hfar.
  destruct (Rgt_dec (sqrt _) _) as [_|Hn]; [reflexivity | exfalso; apply Hn; exact Hfar].
Qed.

Lemma tickNPC_near (p : Player) (now : Z) (npc : NPC) :
  distanceTo p npc <= n_followDistance npc ->
  n_x (tickNPC p now npc) = clampTo worldWidth (n_x npc) /\
  n_y (tickNPC p now npc) = clampTo worldHeight (n_y npc) /\
  n_facing (tickNPC p now npc) = n_facing npc /\
  n_animationFrame (tickNPC p now npc) = 0%nat /\
  n_isMoving (tickNPC p now npc) = false.
Proof.
  unfold distanceTo, tickNPC. intros Hnear.
  destruct (Rgt_dec _ _) as [Hgt|_]; [exfalso; unfold Rgt in Hgt; lra|].
  simpl. repeat split.
Qed.

Lemma tickNPC_in_world (p : Player) (now : Z) (npc : NPC) :
  inWorld (n_x (tickNPC p now npc)) (n_y (tickNPC p now npc)).
Proof.
  unfold inWorld, tickNPC; simpl.
  split; apply clampTo_range; unfold worldWidth, worldHeight; lra.
Qed.

(** Moving two units along the direction of the player brings a companion
    that is more than one unit away closer, and the clamp cannot undo that
    when the player stands inside the world. *)
Lemma tickNPC_closer (p : Player) (now : Z) (npc : NPC) :
  inWorld (p_x p) (p_y p) ->
  1 < distanceTo p npc ->
  n_followDistance npc < distanceTo p npc ->
  distanceTo p (tickNPC p now npc) < distanceTo p npc.
Proof.
  intros [Hpx Hpy] Hone Hfar.
  unfold distanceTo at 1.
  rewrite (tickNPC_far_x p now npc Hfar), (tickNPC_far_y p now npc Hfar).
  unfold distanceTo in *.
  set (dx := p_x p - n_x npc) in *. set (dy := p_y p - n_y npc) in *.
  set (d := sqrt (dx * dx + dy * dy)) in *.
  assert (Hsum : 0 <= dx * dx + dy * dy) by nra.
  assert (Hdd : d * d = dx * dx + dy * dy) by (apply sqrt_sqrt, Hsum).
  assert (Hnz : dx <> 0 \/ dy <> 0).
  { destruct (Req_dec dx 0) as [Hx|Hx]; [|left; exact Hx].
    destruct (Req_dec dy 0) as [Hy|Hy]; [|right; exact Hy].
    exfalso. unfold d in Hone. rewrite Hx, Hy in Hone.
    replace (0 * 0 + 0 * 0) with 0 in Hone by ring. rewrite sqrt_0 in Hone. lra. }
  destruct (cos_sin_atan2 dx dy Hnz) as [Hc Hs]. fold d in Hc, Hs.
  rewrite Hc, Hs. unfold moveSpeed.
  set (u := dx / d) in *. set (v := dy / d) in *.
  assert (Hu : u * d = dx) by (unfold u; field; lra).
  assert (Hv : v * d = dy) by (unfold v; field; lra).
  assert (Huv : u * u + v * v = 1).
  { apply (Rmult_eq_reg_r (d * d)); [|nra].
    replace ((u * u + v * v) * (d * d)) with ((u * d) * (u * d) + (v * d) * (v * d)) by ring.
    rewrite Hu, Hv. lra. }
  pose proof (clampTo_nonexpansive worldWidth (p_x p) (n_x npc + u * 2) Hpx) as Hcx.
  pose proof (clampTo_nonexpansive worldHeight (p_y p) (n_y npc + v * 2) Hpy) as Hcy.
  replace (p_x p - (n_x npc + u * 2)) with (dx - u * 2) in Hcx by (unfold dx; ring).
  replace (p_y p - (n_y npc + v * 2)) with (dy - v * 2) in Hcy by (unfold dy; ring).
  set (a := p_x p - clampTo worldWidth (n_x npc + u * 2)) in *.
  set (b := p_y p - clampTo worldHeight (n_y npc + v * 2)) in *.
  assert (Hmove : (dx - u * 2) * (dx - u * 2) + (dy - v * 2) * (dy - v * 2)
                  = d * d - 4 * d + 4).
  { rewrite <- Hu, <- Hv.
    replace ((u * d - u * 2) * (u * d - u * 2) + (v * d - v * 2) * (v * d - v * 2))
      with ((u * u + v * v) * ((d - 2) * (d - 2))) by ring.
    rewrite Huv. ring. }
  apply Rlt_le_trans with (sqrt (d * d)).
  - apply sqrt_lt_1_alt. clearbody a b u v d dx dy. split; nra.
  - rewrite sqrt_square by lra. lra.
Qed.

(** ** The simulator on the whole client *)

Lemma updateNPCs_due (g : GameClient) (now : Z) (i : string) (npc : NPC) (p : Player) :
  myPlayer g = Some p ->
  npcs g !! i = Some npc ->
  due now npc ->
  npcs (updateNPCs now g) !! i = Some (tickNPC p now npc).
Proof.
  intros Hp Hn Hdue. unfold updateNPCs. rewrite Hp.
  case_bool_decide as Hsize.
  - apply map_size_empty_iff in Hsize. rewrite Hsize, lookup_empty in Hn. discriminate.
  - simpl. rewrite lookup_fmap, Hn. simpl. unfold updateNPC.
    unfold due in Hdue. apply Z.ltb_ge in Hdue. rewrite Hdue. reflexivity.
Qed.

Lemma updateNPCs_not_due (g : GameClient) (now : Z) (i : string) (npc : NPC) :
  npcs g !! i = Some npc ->
  ~ due now npc ->
  npcs (updateNPCs now g) !! i = Some npc.
Proof.
  intros Hn Hdue. unfold updateNPCs.
  destruct (myPlayer g) as [p|]; [|exact Hn].
  case_bool_decide; [exact Hn|].
  simpl. rewrite lookup_fmap, Hn. simpl. unfold updateNPC.
  unfold due in Hdue. apply Z.nle_gt, Z.ltb_lt in Hdue. rewrite Hdue. reflexivity.
Qed.


(** Companions only ever carry the follow distances that [createNPCs]
    gave them. *)
Lemma companionsInv_createNPCs now g :
  companionsInv g -> companionsInv (createNPCs now g).
Proof.
  intros Hg. unfold createNPCs. destruct (myPlayer g) as [p|]; [|exact Hg].
  intros i npc. simpl. intros Hl.
  apply lookup_insert_Some in Hl as [[_ <-]|[_ Hl]];
    [right; right; reflexivity|].
  apply lookup_insert_Some in Hl as [[_ <-]|[_ Hl]];
    [right; left; reflexivity|].
  apply lookup_insert_Some in Hl as [[_ <-]|[_ Hl]];
    [left; reflexivity|].
  exact (Hg i npc Hl).
Qed.

Lemma updateNPC_followDistance p now npc :
  n_followDistance (updateNPC p now npc) = n_followDistance npc.
Proof.
  unfold updateNPC, tickNPC. destruct (_ <? _)%Z; [reflexivity|].
  destruct (Rgt_dec _ _); reflexivity.
Qed.

Lemma companionsInv_updateNPCs now g :
  companionsInv g -> companionsInv (updateNPCs now g).
Proof.
  intros Hg. unfold updateNPCs. destruct (myPlayer g) as [p|]; [|exact Hg].
  destruct (bool_decide _); [exact Hg|].
  intros i npc. simpl. rewrite lookup_fmap. intros Hl.
  destruct (npcs g !! i) as [npc0|] eqn:Hn; [|discriminate].
  injection Hl as <-. unfold createdFollowDistance.
  rewrite updateNPC_followDistance. exact (Hg i npc0 Hn).
Qed.

Lemma companionsInv_updateViewport g :
  companionsInv g -> companionsInv (updateViewport g).
Proof. unfold companionsInv. rewrite npcs_updateViewport. trivial. Qed.

Lemma companionsInv_attemptReconnect g :
  companionsInv g -> companionsInv (attemptReconnect g).
Proof. unfold attemptReconnect. destruct (_ <? _)%nat; trivial. Qed.

Lemma companionsInv_step ev g g' :
  step ev g = Some g' -> companionsInv g -> companionsInv g'.
Proof.
  intros Hs Hg. destruct ev; simpl in Hs.
  - destruct (ws g) as [[]|]; inversion Hs; subst; exact Hg.
  - destruct (ws g) as [[]|]; inversion Hs; subst;
      apply (companionsInv_attemptReconnect (set_ws (Some CLOSED) g)); exact Hg.
  - destruct (ws g) as [[]|]; inversion Hs; subst; exact Hg.
  - destruct (fireTimer (timers g)) as [l|]; inversion Hs; subst.
    destruct ctorThrows; simpl; [|exact Hg].
    apply (companionsInv_attemptReconnect (set_timers (fun _ => l) g)); exact Hg.
  - destruct (isOpen g); inversion Hs; subst.
    apply I_onmessage; trivial.
    + apply companionsInv_createNPCs.
    + apply companionsInv_updateViewport.
  - destruct (isOpen g); inversion Hs; subst; exact Hg.
  - inversion Hs; subst. apply companionsInv_updateNPCs, Hg.
  - inversion Hs; subst. apply companionsInv_updateViewport. exact Hg.
  - inversion Hs; subst. unfold keydown.
    destruct (negb _); [exact Hg|]. destruct (keyDirection key); exact Hg.
  - inversion Hs; subst. unfold keyup.
    destruct (negb _); [exact Hg|]. destruct (existsb _ _); exact Hg.
Qed.

Lemma reachable_companionsInv g : reachable g -> companionsInv g.
Proof.
  intros (w & h & [] & evs & Hrun);
    (eapply run_invariant; [exact companionsInv_step | exact Hrun |]);
    intros i npc Hl; simpl in Hl; rewrite lookup_empty in Hl; discriminate.
Qed.

(** Distances on examples. *)
Lemma distanceTo_east (p : Player) (npc : NPC) :
  p_y p = n_y npc -> n_x npc <= p_x p -> distanceTo p npc = p_x p - n_x npc.
Proof.
  intros Hy Hx. unfold distanceTo. rewrite Hy.
  replace (n_y npc - n_y npc) with 0 by ring.
  replace ((p_x p - n_x npc) * (p_x p - n_x npc) + 0 * 0)
    with ((p_x p - n_x npc) * (p_x p - n_x npc)) by ring.
  apply sqrt_square. lra.
Qed.


Lemma distanceTo_same_position (p : Player) (npc npc' : NPC) :
  n_x npc' = n_x npc -> n_y npc' = n_y npc -> distanceTo p npc' = distanceTo p npc.
Proof. intros Hx Hy. unfold distanceTo. rewrite Hx, Hy. reflexivity. Qed.

Lemma atan2_east (x : R) : 0 < x -> atan2 0 x = 0.
Proof.
  intros Hx. unfold atan2. destruct (Rlt_dec 0 x); [|contradiction].
  replace (0 / x) with 0 by (field; lra). apply atan_0.
Qed.

(** A companion on the east edge of the world, level with a player who is
    farther east, is put back where it was. *)
Lemma tickNPC_east_edge (p : Player) (now : Z) (npc : NPC) :
  n_x npc = worldWidth ->
  worldWidth < p_x p ->
  p_y p = n_y npc ->
  0 <= n_y npc <= worldHeight ->
  n_followDistance npc < distanceTo p npc ->
  n_x (tickNPC p now npc) = n_x npc /\ n_y (tickNPC p now npc) = n_y npc.
Proof.
  intros Hx Hpx Hy Hin Hfar.
  rewrite tickNPC_far_x, tickNPC_far_y by exact Hfar.
  rewrite Hy. replace (n_y npc - n_y npc) with 0 by ring.
  rewrite atan2_east by lra. rewrite cos_0, sin_0, Hx.
  unfold clampTo, moveSpeed, worldWidth in *. split.
  - rewrite Rmin_right by lra. apply Rmax_right. lra.
  - replace (n_y npc + 0 * 2) with (n_y npc) by ring.
    rewrite Rmin_left by lra. apply Rmax_right. lra.
Qed.

(** Discharges the side conditions of the examples: the local player, the
    companion, its time gate. *)
Ltac scenario_facts :=
  first [ apply reachable_scenario
        | apply scenario_myPlayer
        | apply scenario_guardian
        | (unfold due, updateInterval; simpl; lia) ].

(** C3 (amended): in every state the client can reach, when the local
    player stands inside the world, a companion that is due and farther
    from the player than its follow distance is strictly closer to the
    player after the tick. *)
Theorem tick_far_decreases_distance
    (g : GameClient) (now : Z) (i : string) (npc : NPC) (p : Player) :
  reachable g ->
  myPlayer g = Some p ->
  npcs g !! i = Some npc ->
  due now npc ->
  inWorld (p_x p) (p_y p) ->
  n_followDistance npc < distanceTo p npc ->
  exists npc', npcs (updateNPCs now g) !! i = Some npc' /\
               distanceTo p npc' < distanceTo p npc.
Proof.
  intros Hreach Hp Hn Hdue Hin Hfar.
  exists (tickNPC p now npc). split.
  - apply updateNPCs_due; assumption.
  - apply tickNPC_closer; [exact Hin | | exact Hfar].
    destruct (reachable_companionsInv g Hreach i npc Hn) as [H|[H|H]];
      rewrite H in Hfar; lra.
Qed.

Lemma tick_far_decreases_distance_witness :
  exists npc',
    npcs (updateNPCs 100 (scenario 100 100 500 50)) !! "npc1" = Some npc' /\
    distanceTo (crystal 500 50) npc'
      < distanceTo (crystal 500 50) (guardian (100 - 50) (100 - 50) 0).
Proof.
  apply (tick_far_decreases_distance (scenario 100 100 500 50) 100 "npc1"
           (guardian (100 - 50) (100 - 50) 0) (crystal 500 50));
    try scenario_facts.
  - unfold inWorld, worldWidth, worldHeight; simpl; lra.
  - rewrite distanceTo_east; simpl; lra.
Defined.

(** C3 as stated fails: the client joins at (2098, 1050), so that the
    guardian is created on the east edge at (2048, 1000), and the server
    then moves the player to (3000, 1000), outside of the world.  The
    guardian steps to x = 2050, is clamped back to 2048 and stays at
    distance 952. *)
Lemma tick_far_decreases_distance_counterexample :
  ~ (forall (g : GameClient) (now : Z) (i : string) (npc : NPC) (p : Player),
       reachable g ->
       myPlayer g = Some p ->
       npcs g !! i = Some npc ->
       due now npc ->
       n_followDistance npc < distanceTo p npc ->
       (p_x p - n_x npc <> 0 \/ p_y p - n_y npc <> 0) ->
       exists npc', npcs (updateNPCs now g) !! i = Some npc' /\
                    distanceTo p npc' < distanceTo p npc).
Proof.
  intros Hclaim.
  set (g := scenario 2098 1050 3000 1000).
  set (p := crystal 3000 1000). set (npc := guardian (2098 - 50) (1050 - 50) 0).
  assert (Hd : distanceTo p npc = 952) by (rewrite distanceTo_east; simpl; lra).
  assert (Hfar : n_followDistance npc < distanceTo p npc) by (rewrite Hd; simpl; lra).
  destruct (Hclaim g 100%Z "npc1" npc p) as (npc' & Hl & Hlt);
    try (subst g p npc; scenario_facts); try exact Hfar.
  - left. simpl. lra.
  - rewrite (updateNPCs_due g 100 "npc1" npc p) in Hl
      by (subst g p npc; scenario_facts).
    injection Hl as <-.
    destruct (tickNPC_east_edge p 100 npc) as [Hx Hy];
      try exact Hfar; try (unfold worldWidth, worldHeight; simpl; lra).
    rewrite (distanceTo_same_position p npc _ Hx Hy) in Hlt.
    exact (Rlt_irrefl _ Hlt).
Qed.




(** C5: a due companion that is within its follow distance of the local
    player and inside the world keeps its position, has its animation
    frame reset to 0 and is marked as not moving. *)
Theorem tick_near_stays
    (g : GameClient) (now : Z) (i : string) (npc : NPC) (p : Player) :
  myPlayer g = Some p ->
  npcs g !! i = Some npc ->
  due now npc ->
  distanceTo p npc <= n_followDistance npc ->
  inWorld (n_x npc) (n_y npc) ->
  exists npc', npcs (updateNPCs now g) !! i = Some npc' /\
               n_x npc' = n_x npc /\ n_y npc' = n_y npc /\
               n_animationFrame npc' = 0%nat /\ n_isMoving npc' = false.
Proof.
  intros Hp Hn Hdue Hnear [Hx Hy].
  exists (tickNPC p now npc). split; [apply updateNPCs_due; assumption|].
  destruct (tickNPC_near p now npc Hnear) as (Ex & Ey & _ & Ef & Em).
  rewrite Ex, Ey, Ef, Em, !clampTo_id by assumption. repeat split.
Qed.

Lemma tick_near_stays_witness :
  exists npc',
    npcs (updateNPCs 100 (scenario 100 100 110 50)) !! "npc1" = Some npc' /\
    n_x npc' = n_x (guardian (100 - 50) (100 - 50) 0) /\
    n_y npc' = n_y (guardian (100 - 50) (100 - 50) 0) /\
    n_animationFrame npc' = 0%nat /\ n_isMoving npc' = false.
Proof.
  apply (tick_near_stays (scenario 100 100 110 50) 100 "npc1"
           (guardian (100 - 50) (100 - 50) 0) (crystal 110 50));
    try scenario_facts.
  - rewrite distanceTo_east; simpl; lra.
  - unfold inWorld, worldWidth, worldHeight; simpl; lra.
Defined.

(** C6: after its tick, a due companion lies inside the world rectangle
    [0, worldWidth] x [0, worldHeight], wherever it and the player were. *)
Theorem tick_in_world
    (g : GameClient) (now : Z) (i : string) (npc : NPC) (p : Player) :
  myPlayer g = Some p ->
  npcs g !! i = Some npc ->
  due now npc ->
  exists npc', npcs (updateNPCs now g) !! i = Some npc' /\
               inWorld (n_x npc') (n_y npc').
Proof.
  intros Hp Hn Hdue.
  exists (tickNPC p now npc). split; [apply updateNPCs_due; assumption|].
  apply tickNPC_in_world.
Qed.

Lemma tick_in_world_witness :
  exists npc',
    npcs (updateNPCs 100 (scenario 10 10 10 10)) !! "npc1" = Some npc' /\
    inWorld (n_x npc') (n_y npc').
Proof.
  apply (tick_in_world (scenario 10 10 10 10) 100 "npc1"
           (guardian (10 - 50) (10 - 50) 0) (crystal 10 10));
    scenario_facts.
Defined.

(** ** Timers and the session part of the state *)

Lemma fireTimer_app (a b : list Timer) :
  fireTimer a = None -> fireTimer (a ++ b) = app a <$> fireTimer b.
Proof.
  induction a as [|t a IH]; simpl; intros Ha.
  - destruct (fireTimer b); reflexivity.
  - destruct (t_fired t); [|discriminate].
    destruct (fireTimer a) eqn:Hf; [discriminate|].
    rewrite IH by reflexivity. destruct (fireTimer b); reflexivity.
Qed.

Lemma fireTimer_firedTimers (from count : nat) : fireTimer (firedTimers from count) = None.
Proof.
  unfold firedTimers. revert from.
  induction count as [|n IH]; intros from; simpl; [reflexivity|].
  rewrite IH. reflexivity.
Qed.

Lemma fireTimer_app_fired (a b : list Timer) :
  fireTimer a = None -> fireTimer b = None -> fireTimer (a ++ b) = None.
Proof. intros Ha Hb. rewrite fireTimer_app, Hb by exact Ha. reflexivity. Qed.

Lemma fireTimer_pending_last (a : list Timer) (d : Z) :
  fireTimer a = None ->
  fireTimer (a ++ [mkTimer d false]) = Some (a ++ [mkTimer d true]).
Proof. intros Ha. rewrite fireTimer_app by exact Ha. reflexivity. Qed.

Lemma firedTimers_snoc (from count : nat) :
  firedTimers from (S count)
  = firedTimers from count
      ++ [mkTimer (reconnectBaseDelay * Z.of_nat (from + count)) true].
Proof.
  unfold firedTimers. rewrite seq_S, map_app. reflexivity.
Qed.

Lemma sessionInv_attemptReconnect g :
  socketAlive g = false ->
  fireTimer (timers g) = None ->
  sessionInv (attemptReconnect g).
Proof.
  intros Hdead Hnone. unfold attemptReconnect.
  destruct (_ <? _)%nat.
  - repeat split; simpl.
    + intros Halive. unfold socketAlive in *. simpl in Halive. congruence.
    + intros l. rewrite fireTimer_pending_last by exact Hnone.
      intros Hl. injection Hl as <-. apply fireTimer_app_fired; [exact Hnone | reflexivity].
    + intros Hopen. unfold socketAlive in Hdead. rewrite Hopen in Hdead. discriminate.
  - repeat split.
    + intros _. exact Hnone.
    + intros l Hl. congruence.
    + intros Hopen. unfold socketAlive in Hdead. rewrite Hopen in Hdead. discriminate.
Qed.

Lemma sessionInv_step ev g g' : step ev g = Some g' -> sessionInv g -> sessionInv g'.
Proof.
  intros Hs Hinv. destruct (isSessionEvent ev) eqn:Hev.
  - destruct Hinv as (Halive & Hone & Hopen).
    destruct ev; try discriminate; simpl in Hs.
    + destruct (ws g) as [[]|] eqn:Hws; inversion Hs; subst.
      assert (Hnone : fireTimer (timers g) = None)
        by (apply Halive; unfold socketAlive; rewrite Hws; reflexivity).
      repeat split; simpl; auto.
    + assert (Hnone : fireTimer (timers g) = None).
      { apply Halive. unfold socketAlive.
        destruct (ws g) as [[]|]; try discriminate; reflexivity. }
      destruct (ws g) as [[]|]; inversion Hs; subst;
        apply (sessionInv_attemptReconnect (set_ws (Some CLOSED) g)); auto.
    + destruct (fireTimer (timers g)) as [l|] eqn:Hl; inversion Hs; subst.
      assert (Hdead : socketAlive g = false).
      { destruct (socketAlive g) eqn:Ha; [|reflexivity].
        discriminate (Halive eq_refl). }
      pose proof (Hone l eq_refl) as Hnone.
      destruct ctorThrows; simpl.
      * apply (sessionInv_attemptReconnect (set_timers (fun _ => l) g)); auto.
      * repeat split; simpl; auto; congruence.
  - pose proof (step_sessionOf ev g g' Hev Hs) as Heq.
    apply sessionOf_fields in Heq. destruct Heq as (Hw & Ha & Ht).
    unfold sessionInv, socketAlive. rewrite Hw, Ha, Ht. exact Hinv.
Qed.

Lemma sessionInv_constructor w h ctorThrows : sessionInv (constructor w h ctorThrows).
Proof.
  unfold constructor. destruct ctorThrows; simpl.
  - apply (sessionInv_attemptReconnect (setupCanvas w h blank)); reflexivity.
  - repeat split; simpl; congruence.
Qed.

Lemma reachable_sessionInv g : reachable g -> sessionInv g.
Proof.
  intros (w & h & b & evs & Hrun).
  eapply run_invariant; [exact sessionInv_step | exact Hrun |].
  apply sessionInv_constructor.
Qed.

(** ** Reconnection episodes *)

Lemma attemptReconnect_budget g :
  (reconnectAttempts g < maxReconnectAttempts)%nat ->
  attemptReconnect g
  = set_timers (fun l =>
      l ++ [mkTimer (reconnectBaseDelay * Z.of_nat (S (reconnectAttempts g))) false])
      (set_reconnectAttempts (S (reconnectAttempts g)) g).
Proof.
  intros Hlt. unfold attemptReconnect.
  apply Nat.ltb_lt in Hlt. rewrite Hlt. reflexivity.
Qed.

Lemma attemptReconnect_exhausted g :
  (maxReconnectAttempts <= reconnectAttempts g)%nat -> attemptReconnect g = g.
Proof.
  intros Hge. unfold attemptReconnect.
  apply Nat.ltb_ge in Hge. rewrite Hge. reflexivity.
Qed.

Lemma attemptReconnect_attempts g :
  (reconnectAttempts (attemptReconnect g) <= S (reconnectAttempts g))%nat.
Proof.
  unfold attemptReconnect. destruct (_ <? _)%nat; simpl; lia.
Qed.

Lemma close_starts_waiting g :
  socketAlive g = true ->
  reconnectAttempts g = 0%nat ->
  exists g', step EvClose g = Some g' /\ waiting 1 (timers g) g'.
Proof.
  intros Halive Hzero. exists (onclose (set_ws (Some CLOSED) g)). split.
  - unfold socketAlive in Halive. simpl.
    destruct (ws g) as [[]|]; try discriminate; reflexivity.
  - unfold onclose. rewrite attemptReconnect_budget
      by (simpl; rewrite Hzero; unfold maxReconnectAttempts; lia).
    simpl. rewrite Hzero. repeat split.
Qed.

(** The timers of a client that waits for attempt [k], once the pending
    one has fired. *)
Lemma waiting_fireTimer k base g :
  fireTimer base = None -> (1 <= k)%nat -> waiting k base g ->
  fireTimer (timers g) = Some (base ++ firedTimers 1 k).
Proof.
  intros Hbase Hk (_ & _ & Ht). rewrite Ht, app_assoc.
  rewrite fireTimer_pending_last
    by (apply fireTimer_app_fired; [exact Hbase | apply fireTimer_firedTimers]).
  rewrite <- app_assoc. do 2 f_equal.
  destruct k as [|j]; [lia|].
  replace (S j - 1)%nat with j by lia. rewrite firedTimers_snoc. reflexivity.
Qed.

Lemma failedAttempt_waiting ctorThrows k base g :
  fireTimer base = None ->
  (1 <= k < maxReconnectAttempts)%nat ->
  waiting k base g ->
  exists g', run (failedAttempt ctorThrows) g = Some g' /\ waiting (S k) base g'.
Proof.
  intros Hbase Hk Hw.
  pose proof (waiting_fireTimer k base g Hbase (proj1 Hk) Hw) as Hfire.
  destruct Hw as (Hws & Hatt & _).
  destruct ctorThrows; simpl; rewrite Hfire; simpl.
  - eexists; split; [reflexivity|].
    rewrite attemptReconnect_budget by (simpl; lia).
    unfold waiting. simpl. rewrite Hatt, Nat.sub_0_r, <- app_assoc. repeat split. exact Hws.
  - eexists; split; [reflexivity|].
    unfold onclose. rewrite attemptReconnect_budget by (simpl; lia).
    unfold waiting. simpl. rewrite Hatt, Nat.sub_0_r, <- app_assoc. repeat split.
Qed.

Lemma failedAttempt_exhausted ctorThrows base g :
  fireTimer base = None ->
  waiting maxReconnectAttempts base g ->
  exists g', run (failedAttempt ctorThrows) g = Some g' /\
             gaveUp g' /\ timers g' = base ++ firedTimers 1 maxReconnectAttempts.
Proof.
  intros Hbase Hw.
  assert (Hk : (1 <= maxReconnectAttempts)%nat) by (unfold maxReconnectAttempts; lia).
  pose proof (waiting_fireTimer _ base g Hbase Hk Hw) as Hfire.
  assert (Hnone : fireTimer (base ++ firedTimers 1 maxReconnectAttempts) = None)
    by (apply fireTimer_app_fired; [exact Hbase | apply fireTimer_firedTimers]).
  destruct Hw as (Hws & Hatt & _).
  destruct ctorThrows; simpl; rewrite Hfire; simpl.
  - eexists; split; [reflexivity|].
    rewrite attemptReconnect_exhausted by (simpl; lia).
    repeat split; simpl; assumption.
  - eexists; split; [reflexivity|].
    unfold onclose. rewrite attemptReconnect_exhausted by (simpl; lia).
    repeat split; simpl; assumption.
Qed.

Lemma failures_keep_waiting modes : forall k base g,
  fireTimer base = None ->
  (1 <= k)%nat ->
  (k + length modes <= maxReconnectAttempts)%nat ->
  waiting k base g ->
  exists g', run (flat_map failedAttempt modes) g = Some g' /\
             waiting (k + length modes) base g'.
Proof.
  induction modes as [|b rest IH]; intros k base g Hbase Hk Hlen Hw; simpl in *.
  - exists g. rewrite Nat.add_0_r. split; [reflexivity | exact Hw].
  - destruct (failedAttempt_waiting b k base g Hbase ltac:(lia) Hw) as (g1 & Hrun1 & Hw1).
    destruct (IH (S k) base g1 Hbase ltac:(lia) ltac:(lia) Hw1) as (g2 & Hrun2 & Hw2).
    exists g2. rewrite run_app, Hrun1. split; [exact Hrun2|].
    replace (k + S (length rest))%nat with (S k + length rest)%nat by lia. exact Hw2.
Qed.

Lemma failures_exhaust modes : forall k base g,
  fireTimer base = None ->
  (1 <= k <= maxReconnectAttempts)%nat ->
  (k + length modes = S maxReconnectAttempts)%nat ->
  waiting k base g ->
  exists g', run (flat_map failedAttempt modes) g = Some g' /\
             gaveUp g' /\ timers g' = base ++ firedTimers 1 maxReconnectAttempts.
Proof.
  induction modes as [|b rest IH]; intros k base g Hbase Hk Hlen Hw; simpl in *.
  - lia.
  - destruct (Nat.eq_dec k maxReconnectAttempts) as [->|Hne].
    + destruct rest as [|b' rest']; [|unfold maxReconnectAttempts in Hlen; simpl in Hlen; lia].
      simpl. rewrite app_nil_r. apply failedAttempt_exhausted; assumption.
    + destruct (failedAttempt_waiting b k base g Hbase ltac:(lia) Hw) as (g1 & Hrun1 & Hw1).
      destruct (IH (S k) base g1 Hbase ltac:(lia) ltac:(lia) Hw1) as (g2 & Hrun2 & Hg2).
      exists g2. rewrite run_app, Hrun1. split; [exact Hrun2 | exact Hg2].
Qed.

Lemma gaveUp_permanent g :
  gaveUp g -> forall evs g', run evs g = Some g' -> sessionOf g' = sessionOf g.
Proof.
  intros (Hws & _ & Hnone) evs g' Hrun.
  apply (run_invariant (fun g1 => sessionOf g1 = sessionOf g)) with (evs := evs) (g := g);
    [| exact Hrun | reflexivity].
  intros ev g1 g2 Hstep Heq.
  destruct (isSessionEvent ev) eqn:Hev.
  - exfalso. apply sessionOf_fields in Heq. destruct Heq as (Hw & _ & Ht).
    destruct ev; try discriminate; simpl in Hstep.
    + rewrite Hw, Hws in Hstep. discriminate.
    + rewrite Hw, Hws in Hstep. discriminate.
    + rewrite Ht, Hnone in Hstep. discriminate.
  - rewrite (step_sessionOf ev g1 g2 Hev Hstep). exact Heq.
Qed.

Lemma attempts_le_failures evs : forall g g' acc,
  run evs g = Some g' ->
  (reconnectAttempts g <= acc)%nat ->
  (reconnectAttempts g' <= failuresSinceOpen acc evs)%nat.
Proof.
  induction evs as [|ev rest IH]; intros g g' acc Hrun Hacc; simpl in *.
  - injection Hrun as <-. exact Hacc.
  - destruct (step ev g) as [g1|] eqn:Hstep; [|discriminate].
    apply (IH g1 g' _ Hrun).
    destruct (isSessionEvent ev) eqn:Hev.
    + destruct ev; try discriminate; simpl in Hstep.
      * destruct (ws g) as [[]|]; inversion Hstep; subst; simpl; lia.
      * pose proof (attemptReconnect_attempts (set_ws (Some CLOSED) g)) as Hle.
        destruct (ws g) as [[]|]; inversion Hstep; subst; unfold onclose;
          simpl in Hle; lia.
      * destruct (fireTimer (timers g)) as [l|]; inversion Hstep; subst.
        destruct ctorThrows; simpl; [|exact Hacc].
        pose proof (attemptReconnect_attempts (set_timers (fun _ => l) g)) as Hle.
        simpl in Hle. lia.
    + apply step_sessionOf in Hstep; [|exact Hev].
      apply sessionOf_fields in Hstep. destruct Hstep as (_ & Ha & _).
      rewrite Ha. destruct ev; try discriminate; exact Hacc.
Qed.

(** C7: from a connected session, six transport failures in a row (the
    drop of the connection, then five reconnection attempts that each
    fail in one of the two possible ways) schedule exactly five timers,
    the k-th with a delay of k times 2000 ms; after the sixth failure the
    socket is closed, no timer is pending, and no later event changes the
    session any more. *)
Theorem six_failures_five_attempts (g : GameClient) (modes : list bool) :
  reachable g ->
  ws g = Some OPEN ->
  length modes = maxReconnectAttempts ->
  exists g',
    run (EvClose :: flat_map failedAttempt modes) g = Some g' /\
    timers g' = timers g ++ [mkTimer 2000 true; mkTimer 4000 true; mkTimer 6000 true;
                             mkTimer 8000 true; mkTimer 10000 true] /\
    gaveUp g' /\
    (forall evs g'', run evs g' = Some g'' -> sessionOf g'' = sessionOf g').
Proof.
  intros Hreach Hopen Hlen.
  destruct (reachable_sessionInv g Hreach) as (Halive & _ & Hzero).
  assert (Ha : socketAlive g = true) by (unfold socketAlive; rewrite Hopen; reflexivity).
  destruct (close_starts_waiting g Ha (Hzero Hopen)) as (g1 & Hstep & Hw).
  destruct (failures_exhaust modes 1 (timers g) g1 (Halive Ha)) as (g' & Hrun & Hup & Ht);
    [unfold maxReconnectAttempts; lia | lia | exact Hw |].
  exists g'. rewrite run_cons, Hstep. repeat split; try apply Hup.
  - exact Hrun.
  - exact Ht.
  - apply gaveUp_permanent, Hup.
Qed.

Lemma six_failures_five_attempts_witness :
  exists g',
    run (EvClose :: flat_map failedAttempt [false; true; false; false; true]) freshlyOpen
      = Some g' /\
    timers g' = timers freshlyOpen
                  ++ [mkTimer 2000 true; mkTimer 4000 true; mkTimer 6000 true;
                      mkTimer 8000 true; mkTimer 10000 true] /\
    gaveUp g' /\
    (forall evs g'', run evs g' = Some g'' -> sessionOf g'' = sessionOf g').
Proof.
  apply (six_failures_five_attempts freshlyOpen [false; true; false; false; true]).
  - exact reachable_freshlyOpen.
  - reflexivity.
  - reflexivity.
Defined.

(** C10: a successful open resets the attempt counter to 0; from there,
    every one of the next failures finds budget left and schedules its
    reconnection attempt, up to the fifth; and the budget can only be
    used up after at least five failures with no open in between. *)
Theorem reconnect_budget_per_episode (g g1 : GameClient) (modes : list bool) :
  reachable g ->
  step EvOpen g = Some g1 ->
  (length modes < maxReconnectAttempts)%nat ->
  reconnectAttempts g1 = 0%nat /\
  (exists g2,
     run (EvClose :: flat_map failedAttempt modes) g1 = Some g2 /\
     waiting (S (length modes)) (timers g1) g2) /\
  (forall evs g3,
     run evs g1 = Some g3 ->
     reconnectAttempts g3 = maxReconnectAttempts ->
     (maxReconnectAttempts <= failuresSinceOpen 0 evs)%nat).
Proof.
  intros Hreach Hstep Hlen.
  pose proof (reachable_sessionInv g1 (reachable_step _ _ _ Hreach Hstep))
    as (Halive & _ & Hzero).
  assert (Hopen : ws g1 = Some OPEN).
  { simpl in Hstep. destruct (ws g) as [[]|]; inversion Hstep; reflexivity. }
  assert (Ha : socketAlive g1 = true) by (unfold socketAlive; rewrite Hopen; reflexivity).
  split; [exact (Hzero Hopen)|]. split.
  - destruct (close_starts_waiting g1 Ha (Hzero Hopen)) as (g' & Hclose & Hw).
    destruct (failures_keep_waiting modes 1 (timers g1) g' (Halive Ha)) as (g2 & Hrun & Hw2);
      [lia | lia | exact Hw |].
    exists g2. rewrite run_cons, Hclose. split; [exact Hrun | exact Hw2].
  - intros evs g3 Hrun Hfull. rewrite <- Hfull.
    apply (attempts_le_failures evs g1 g3 0 Hrun). rewrite (Hzero Hopen). lia.
Qed.

Lemma reconnect_budget_per_episode_witness :
  reconnectAttempts freshlyOpen = 0%nat /\
  (exists g2,
     run (EvClose :: flat_map failedAttempt [true; false; false; true]) freshlyOpen = Some g2 /\
     waiting 5 (timers freshlyOpen) g2) /\
  (forall evs g3,
     run evs freshlyOpen = Some g3 ->
     reconnectAttempts g3 = maxReconnectAttempts ->
     (maxReconnectAttempts <= failuresSinceOpen 0 evs)%nat).
Proof.
  apply (reconnect_budget_per_episode (constructor 800 600 false) freshlyOpen
           [true; false; false; true]).
  - apply reachable_constructor.
  - reflexivity.
  - unfold maxReconnectAttempts; simpl; lia.
Defined.

(** ** Message dispatch *)

(** C8: a message whose discriminator is none of the four known actions
    (or is missing) makes the dispatcher return normally and leaves the
    whole client, hence the entity store, as it was. *)
Theorem unknown_action_ignored (message : Message) (now : Z) (g : GameClient) :
  (forall a, m_action message = Some a -> ~ In a knownActions) ->
  handleServerMessage message now g = Ok tt g.
Proof.
  intros Hunknown. unfold handleServerMessage.
  destruct (m_action message) as [a|]; [|reflexivity].
  specialize (Hunknown a eq_refl). unfold knownActions in Hunknown. simpl in Hunknown.
  destruct (String.eqb_spec a "join_game") as [->|_]; [tauto|].
  destruct (String.eqb_spec a "player_joined") as [->|_]; [tauto|].
  destruct (String.eqb_spec a "players_moved") as [->|_]; [tauto|].
  destruct (String.eqb_spec a "player_left") as [->|_]; [tauto|].
  reflexivity.
Qed.

Lemma unknown_action_ignored_witness :
  handleServerMessage (bareMessage "foo") 0 (joinedAt 100 100)
  = Ok tt (joinedAt 100 100).
Proof.
  apply (unknown_action_ignored (bareMessage "foo") 0 (joinedAt 100 100)).
  intros a Ha. injection Ha as <-. simpl.
  intros [H|[H|[H|[H|[]]]]]; discriminate H.
Defined.

(** C9: on a client that has no local player yet, a join acknowledgement
    whose players map has no entry under the acknowledged id leaves the
    local player null and throws when the handler reads its username;
    the players and the id written before stay. *)
Theorem join_without_own_entry_throws
    (message : Message) (now : Z) (g : GameClient)
    (ps : gmap string Player) (avs : gmap string Avatar) :
  myPlayer g = None ->
  m_players message = Some ps ->
  m_avatars message = Some avs ->
  (forall i, m_playerId message = Some i -> ps !! i = None) ->
  exists g',
    handleJoinGameSuccess message now g = Throw nullUsername g' /\
    myPlayer g' = None /\
    myPlayerId g' = m_playerId message /\
    players g' = ps ∪ players g.
Proof.
  intros Hnone Hps Havs Hmiss.
  unfold handleJoinGameSuccess, mbind, M_bind, modify, gets.
  rewrite Hps, Havs. simpl.
  assert (Hown : ownEntry (set_myPlayerId (m_playerId message) g) ps = None).
  { unfold ownEntry. simpl. destruct (m_playerId message) as [i|]; [|reflexivity].
    apply Hmiss. reflexivity. }
  rewrite Hown.
  rewrite createNPCs_no_player by exact Hnone.
  rewrite updateViewport_no_player by exact Hnone.
  simpl. rewrite Hnone. eexists. split; [reflexivity|]. repeat split. exact Hnone.
Qed.

Lemma join_without_own_entry_throws_witness :
  exists g',
    handleJoinGameSuccess (joinAck "p1" ∅) 0 freshlyOpen = Throw nullUsername g' /\
    myPlayer g' = None /\
    myPlayerId g' = m_playerId (joinAck "p1" ∅) /\
    players g' = ∅ ∪ players freshlyOpen.
Proof.
  apply (join_without_own_entry_throws (joinAck "p1" ∅) 0 freshlyOpen ∅ ∅).
  - reflexivity.
  - reflexivity.
  - reflexivity.
  - intros i _. apply lookup_empty.
Defined.

(** The same acknowledgement on a client that already knows a local
    player (a second join after a reconnection) does not throw: the stale
    player stays. *)
Lemma join_without_own_entry_stale
    (message : Message) (now : Z) (g : GameClient) (p : Player)
    (ps : gmap string Player) (avs : gmap string Avatar) :
  myPlayer g = Some p ->
  m_players message = Some ps ->
  m_avatars message = Some avs ->
  (forall i, m_playerId message = Some i -> ps !! i = None) ->
  threw (handleJoinGameSuccess message now g) = false /\
  myPlayer (stateOf (handleJoinGameSuccess message now g)) = Some p.
Proof.
  intros Hsome Hps Havs Hmiss.
  unfold handleJoinGameSuccess, mbind, M_bind, modify, gets.
  rewrite Hps, Havs. simpl.
  assert (Hown : ownEntry (set_myPlayerId (m_playerId message) g) ps = None).
  { unfold ownEntry. simpl. destruct (m_playerId message) as [i|]; [|reflexivity].
    apply Hmiss. reflexivity. }
  rewrite Hown.
  unfold updateViewport, createNPCs. simpl. rewrite Hsome. simpl. rewrite Hsome. simpl.
  rewrite Hsome. unfold mret, M_ret. simpl. split; [reflexivity | exact Hsome].
Qed.

(** * Further properties of the code *)

(** ** What is sent, and when *)

Lemma sent_updateViewport g : sent (updateViewport g) = sent g.
Proof. unfold updateViewport. destruct (myPlayer g); reflexivity. Qed.

Lemma sent_createNPCs now g : sent (createNPCs now g) = sent g.
Proof. unfold createNPCs. destruct (myPlayer g); reflexivity. Qed.

Lemma sent_updateNPCs now g : sent (updateNPCs now g) = sent g.
Proof.
  unfold updateNPCs. destruct (myPlayer g); [|reflexivity].
  destruct (bool_decide _); reflexivity.
Qed.

Lemma sent_attemptReconnect g : sent (attemptReconnect g) = sent g.
Proof. unfold attemptReconnect. destruct (_ <? _)%nat; reflexivity. Qed.

Lemma sent_onmessage message now g : sent (onmessage message now g) = sent g.
Proof.
  apply (I_onmessage (fun g' => sent g' = sent g)); try reflexivity;
    try (intros; assumption).
  - intros now' g' Hg'. rewrite sent_createNPCs. exact Hg'.
  - intros g' Hg'. rewrite sent_updateViewport. exact Hg'.
Qed.

Lemma isOpen_keydown key g : isOpen (keydown key g) = isOpen g.
Proof.
  unfold keydown. destruct (negb (isOpen g)); [reflexivity|].
  destruct (keyDirection key); reflexivity.
Qed.

Lemma isOpen_keyup key g : isOpen (keyup key g) = isOpen g.
Proof.
  unfold keyup. destruct (negb (isOpen g)); [reflexivity|].
  destruct (existsb _ _); reflexivity.
Qed.

Lemma step_sent ev g g' :
  step ev g = Some g' -> sent g' = sent g ++ sentBy ev g.
Proof.
  intros Hs. destruct ev; simpl in Hs; unfold sentBy.
  - destruct (ws g) as [[]|]; inversion Hs; reflexivity.
  - destruct (ws g) as [[]|]; inversion Hs; subst; unfold onclose;
      rewrite sent_attemptReconnect, app_nil_r; reflexivity.
  - destruct (ws g) as [[]|]; inversion Hs; subst; rewrite app_nil_r; reflexivity.
  - destruct (fireTimer (timers g)) as [l|]; inversion Hs; subst.
    rewrite app_nil_r. destruct ctorThrows; simpl; [|reflexivity].
    rewrite sent_attemptReconnect. reflexivity.
  - destruct (isOpen g); inversion Hs; subst.
    rewrite sent_onmessage, app_nil_r. reflexivity.
  - destruct (isOpen g); inversion Hs; subst. rewrite app_nil_r. reflexivity.
  - inversion Hs; subst. rewrite sent_updateNPCs, app_nil_r. reflexivity.
  - inversion Hs; subst. unfold onresize. rewrite sent_updateViewport, app_nil_r.
    reflexivity.
  - inversion Hs; subst. unfold keydown. destruct (isOpen g); cbn [negb].
    + destruct (keyDirection key); [reflexivity | rewrite app_nil_r; reflexivity].
    + rewrite app_nil_r. reflexivity.
  - inversion Hs; subst. unfold keyup. destruct (isOpen g); cbn [negb].
    + destruct (existsb (String.eqb key) stopKeys);
        [reflexivity | rewrite app_nil_r; reflexivity].
    + rewrite app_nil_r. reflexivity.
Qed.

Lemma step_isOpen_after_send ev g g' :
  step ev g = Some g' -> sentBy ev g <> [] -> isOpen g' = true.
Proof.
  intros Hs Hne. destruct ev; simpl in Hs; unfold sentBy in Hne; try congruence.
  - destruct (ws g) as [[]|]; inversion Hs; reflexivity.
  - inversion Hs; subst. rewrite isOpen_keydown.
    destruct (isOpen g); [reflexivity | congruence].
  - inversion Hs; subst. rewrite isOpen_keyup.
    destruct (isOpen g); [reflexivity | congruence].
Qed.

(** X1: an event makes the client send at most one message, and only on
    a socket that is open.  When the socket opens it sends the join
    request for "Crystal".  A key pressed while the socket is open sends
    the move in the direction of that key, and a movement key released
    while it is open sends a stop; any other key, and any key while the
    socket is not open, sends nothing.  A close, an error, a timer, an
    inbound message (parsable or not), a frame and a resize send
    nothing. *)
Theorem sends_only_while_open (ev : Event) (g g' : GameClient) :
  step ev g = Some g' ->
  match ev with
  | EvOpen =>
      isOpen g' = true /\ sent g' = sent g ++ [OutJoin "Crystal"]
  | EvKeyDown key =>
      match keyDirection key with
      | Some direction =>
          if isOpen g
          then isOpen g' = true /\ sent g' = sent g ++ [OutMove direction]
          else sent g' = sent g
      | None => sent g' = sent g
      end
  | EvKeyUp key =>
      if isOpen g && existsb (String.eqb key) stopKeys
      then isOpen g' = true /\ sent g' = sent g ++ [OutStop]
      else sent g' = sent g
  | EvClose | EvError | EvTimer _ | EvMessage _ _ | EvGarbage
  | EvFrame _ | EvResize _ _ =>
      sent g' = sent g
  end.
Proof.
  intros Hs. pose proof (step_sent ev g g' Hs) as Hsent.
  pose proof (step_isOpen_after_send ev g g' Hs) as Hopen.
  destruct ev; unfold sentBy in Hsent, Hopen;
    try (rewrite app_nil_r in Hsent; exact Hsent).
  - split; [apply Hopen; discriminate | exact Hsent].
  - destruct (keyDirection key) as [direction|]; destruct (isOpen g);
      try (rewrite app_nil_r in Hsent; exact Hsent).
    split; [apply Hopen; discriminate | exact Hsent].
  - destruct (isOpen g); cbn [andb];
      [|rewrite app_nil_r in Hsent; exact Hsent].
    destruct (existsb (String.eqb key) stopKeys);
      [|rewrite app_nil_r in Hsent; exact Hsent].
    split; [apply Hopen; discriminate | exact Hsent].
Qed.

Lemma sends_only_while_open_witness :
  isOpen freshlyOpen = true /\
  sent freshlyOpen = sent (constructor 800 600 false) ++ [OutJoin "Crystal"].
Proof.
  apply (sends_only_while_open EvOpen (constructor 800 600 false) freshlyOpen).
  reflexivity.
Defined.

Lemma keyDirection_stopKeys (key : string) :
  is_Some (keyDirection key) <-> existsb (String.eqb key) stopKeys = true.
Proof.
  unfold keyDirection, stopKeys. simpl.
  repeat match goal with
         | |- context [(key =? ?s)%string] => destruct (key =? s)%string; simpl
         end;
    (split;
       [ intros [d Hd]; first [reflexivity | discriminate]
       | intros Hb; first [discriminate | eauto] ]).
Qed.

Lemma app_singleton_neq {A} (l : list A) (x : A) : l <> l ++ [x].
Proof.
  intros H. apply (f_equal (@length A)) in H. rewrite length_app in H. simpl in H. lia.
Qed.

(** X2: while the socket is open, pressing a key sends a move exactly
    when releasing the same key sends a stop: the keys that start a move
    and the keys that stop one are the same twelve. *)
Theorem key_press_release_pair (g : GameClient) (key : string) :
  isOpen g = true ->
  (exists d, sent (keydown key g) = sent g ++ [OutMove d]) <->
  sent (keyup key g) = sent g ++ [OutStop].
Proof.
  intros Hopen. pose proof (keyDirection_stopKeys key) as Hkeys.
  unfold keydown, keyup. rewrite Hopen. cbn [negb].
  destruct (keyDirection key) as [d|].
  - assert (Hstop : existsb (String.eqb key) stopKeys = true) by (apply Hkeys; eauto).
    rewrite Hstop. split; [reflexivity | eauto].
  - destruct (existsb (String.eqb key) stopKeys).
    + destruct (proj2 Hkeys eq_refl) as [d Hd]. discriminate.
    + split.
      * intros [d Hd]. exfalso. exact (app_singleton_neq _ _ Hd).
      * intros Hs. exfalso. exact (app_singleton_neq _ _ Hs).
Qed.

Lemma key_press_release_pair_witness :
  (exists d, sent (keydown "w" freshlyOpen) = sent freshlyOpen ++ [OutMove d]) <->
  sent (keyup "w" freshlyOpen) = sent freshlyOpen ++ [OutStop].
Proof.
  apply (key_press_release_pair freshlyOpen "w"). reflexivity.
Defined.

Lemma filter_isJoin_sentBy ev g :
  List.filter isJoin (sentBy ev g)
  = if isOpenEvent ev then [OutJoin "Crystal"] else [].
Proof.
  destruct ev; try reflexivity; unfold sentBy.
  - destruct (isOpen g); [|reflexivity]. destruct (keyDirection key); reflexivity.
  - destruct (isOpen g); [|reflexivity].
    destruct (existsb (String.eqb key) stopKeys); reflexivity.
Qed.

Lemma run_joins evs : forall g g',
  run evs g = Some g' ->
  List.filter isJoin (sent g')
  = List.filter isJoin (sent g) ++ repeat (OutJoin "Crystal") (countOpens evs).
Proof.
  induction evs as [|ev rest IH]; intros g g' Hrun.
  - injection Hrun as <-. simpl. rewrite app_nil_r. reflexivity.
  - rewrite run_cons in Hrun. destruct (step ev g) as [g1|] eqn:Hs; [|discriminate].
    rewrite (IH g1 g' Hrun), (step_sent ev g g1 Hs), List.filter_app.
    rewrite filter_isJoin_sentBy, <- app_assoc. f_equal.
    unfold countOpens. simpl. destruct (isOpenEvent ev); reflexivity.
Qed.

(** X3: along any run from the constructor, the join requests sent are
    exactly one request for the player "Crystal" per successful open of a
    socket: none is sent before a socket opens and none is repeated. *)
Theorem one_join_per_open (w h : R) (ctorThrows : bool) (evs : list Event)
    (g : GameClient) :
  run evs (constructor w h ctorThrows) = Some g ->
  List.filter isJoin (sent g) = repeat (OutJoin "Crystal") (countOpens evs).
Proof.
  intros Hrun. rewrite (run_joins evs _ g Hrun).
  unfold constructor, connectToServer.
  destruct ctorThrows; [rewrite sent_attemptReconnect|]; reflexivity.
Qed.

Lemma one_join_per_open_witness :
  List.filter isJoin (sent freshlyOpen) = repeat (OutJoin "Crystal") (countOpens [EvOpen]).
Proof.
  apply (one_join_per_open 800 600 false [EvOpen] freshlyOpen). reflexivity.
Defined.

(** ** The reconnection budget and its timers *)

Lemma fireTimer_delays (l l' : list Timer) :
  fireTimer l = Some l' -> map t_delay l' = map t_delay l.
Proof.
  revert l'. induction l as [|t r IH]; intros l' Hf; simpl in Hf; [discriminate|].
  destruct (t_fired t).
  - destruct (fireTimer r) as [r'|]; [|discriminate].
    injection Hf as <-. simpl. rewrite (IH r' eq_refl). reflexivity.
  - injection Hf as <-. reflexivity.
Qed.

Lemma budgetInv_attemptReconnect g : budgetInv g -> budgetInv (attemptReconnect g).
Proof.
  intros [Hle Hall]. unfold attemptReconnect.
  destruct (Nat.ltb_spec (reconnectAttempts g) maxReconnectAttempts) as [Hlt|_];
    [|split; assumption].
  split; simpl; [lia|].
  rewrite map_app. apply Forall_app. split; [exact Hall|].
  constructor; [|constructor].
  exists (S (reconnectAttempts g)). split; [lia | reflexivity].
Qed.

Lemma budgetInv_session g g' : sessionOf g' = sessionOf g -> budgetInv g -> budgetInv g'.
Proof.
  intros Heq. apply sessionOf_fields in Heq. destruct Heq as (_ & Ha & Ht).
  unfold budgetInv. rewrite Ha, Ht. trivial.
Qed.

Lemma budgetInv_step ev g g' : step ev g = Some g' -> budgetInv g -> budgetInv g'.
Proof.
  intros Hs Hinv. destruct (isSessionEvent ev) eqn:Hev.
  - destruct ev; try discriminate; simpl in Hs.
    + destruct (ws g) as [[]|]; inversion Hs; subst.
      split; simpl; [lia | apply Hinv].
    + destruct (ws g) as [[]|]; inversion Hs; subst;
        apply (budgetInv_attemptReconnect (set_ws (Some CLOSED) g)); exact Hinv.
    + destruct (fireTimer (timers g)) as [l|] eqn:Hl; inversion Hs; subst.
      assert (Hfired : budgetInv (set_timers (fun _ => l) g)).
      { split; simpl; [apply Hinv|]. rewrite (fireTimer_delays _ _ Hl). apply Hinv. }
      destruct ctorThrows; simpl; [|exact Hfired].
      apply budgetInv_attemptReconnect, Hfired.
  - apply (budgetInv_session g g'); [|exact Hinv].
    apply (step_sessionOf ev); assumption.
Qed.

Lemma reachable_budgetInv (g : GameClient) : reachable g -> budgetInv g.
Proof.
  intros (w & h & b & evs & Hrun).
  eapply run_invariant; [exact budgetInv_step | exact Hrun |].
  unfold constructor, connectToServer.
  assert (H0 : budgetInv (setupCanvas w h blank))
    by (split; simpl; [unfold maxReconnectAttempts; lia | constructor]).
  destruct b; [apply budgetInv_attemptReconnect|]; exact H0.
Qed.

(** X4: in every state the client can reach, whether or not a timer was
    ever scheduled, the attempt counter is at most the budget of 5; and
    every timer that was ever scheduled has a delay of 2000 ms times an
    attempt number between 1 and 5: no delay is shorter than 2000 ms or
    longer than 10000 ms. *)
Theorem backoff_delays_bounded (g : GameClient) :
  reachable g ->
  (reconnectAttempts g <= 5)%nat /\
  forall t : Timer,
    In t (timers g) ->
    (exists k : nat, (1 <= k <= 5)%nat /\ t_delay t = (2000 * Z.of_nat k)%Z) /\
    (2000 <= t_delay t <= 10000)%Z.
Proof.
  intros Hg. destruct (reachable_budgetInv g Hg) as [Hle Hall].
  split; [exact Hle|]. intros t Hin.
  rewrite List.Forall_forall in Hall.
  destruct (Hall (t_delay t) (in_map t_delay _ _ Hin)) as (k & Hk & Hd).
  unfold maxReconnectAttempts, reconnectBaseDelay in *.
  split; [exists k; split; assumption | lia].
Qed.

Lemma backoff_delays_bounded_witness :
  (reconnectAttempts (constructor 800 600 true) <= 5)%nat /\
  forall t : Timer,
    In t (timers (constructor 800 600 true)) ->
    (exists k : nat, (1 <= k <= 5)%nat /\ t_delay t = (2000 * Z.of_nat k)%Z) /\
    (2000 <= t_delay t <= 10000)%Z.
Proof.
  apply (backoff_delays_bounded (constructor 800 600 true)).
  apply reachable_constructor.
Defined.

Lemma fireTimer_None_pending (l : list Timer) :
  fireTimer l = None -> pendingTimers l = [].
Proof.
  induction l as [|t r IH]; simpl; [reflexivity|].
  destruct (t_fired t); [|discriminate]. simpl.
  destruct (fireTimer r); [discriminate|]. intros _. apply IH. reflexivity.
Qed.

Lemma fireTimer_Some_pending (l l' : list Timer) :
  fireTimer l = Some l' ->
  length (pendingTimers l) = S (length (pendingTimers l')).
Proof.
  revert l'. induction l as [|t r IH]; intros l' Hf; simpl in Hf; [discriminate|].
  unfold pendingTimers in *. simpl. destruct (t_fired t) eqn:Ht; simpl.
  - destruct (fireTimer r) as [r'|]; [|discriminate].
    injection Hf as <-. simpl. rewrite Ht. simpl. apply IH. reflexivity.
  - injection Hf as <-. reflexivity.
Qed.

(** X5: in every state the client can reach, at most one reconnection
    timer is pending, and none is while a socket is connecting or open:
    reconnection attempts never run side by side. *)
Theorem at_most_one_pending_timer (g : GameClient) :
  reachable g ->
  (length (pendingTimers (timers g)) <= 1)%nat /\
  (socketAlive g = true -> pendingTimers (timers g) = []).
Proof.
  intros Hg. destruct (reachable_sessionInv g Hg) as (Halive & Hone & _). split.
  - destruct (fireTimer (timers g)) as [l|] eqn:Hf.
    + rewrite (fireTimer_Some_pending _ _ Hf).
      rewrite (fireTimer_None_pending l (Hone l eq_refl)). simpl. lia.
    + rewrite (fireTimer_None_pending _ Hf). simpl. lia.
  - intros Ha. apply fireTimer_None_pending, Halive, Ha.
Qed.

Lemma at_most_one_pending_timer_witness :
  (length (pendingTimers (timers (constructor 800 600 true))) <= 1)%nat /\
  (socketAlive (constructor 800 600 true) = true ->
   pendingTimers (timers (constructor 800 600 true)) = []).
Proof.
  apply (at_most_one_pending_timer (constructor 800 600 true)).
  apply reachable_constructor.
Defined.

(** ** The entity store under the four notifications *)

Lemma set_players_id (g : GameClient) (f : gmap string Player -> gmap string Player) :
  f (players g) = players g -> set_players f g = g.
Proof. intros Hf. destruct g. unfold set_players. simpl in *. rewrite Hf. reflexivity. Qed.

(** X6: a [player_left] notification never throws; it removes the entry
    of the named player and no other; it is a no-op when the player is
    not in the store (or when the message names none); and it does not
    clear the local player, even when the local player is the one that
    left. *)
Theorem player_left_removes_entry (message : Message) (now : Z) (g : GameClient) :
  m_action message = Some "player_left" ->
  threw (handleServerMessage message now g) = false /\
  myPlayer (onmessage message now g) = myPlayer g /\
  (forall i, m_playerId message = Some i ->
     players (onmessage message now g) !! i = None /\
     forall j, j <> i -> players (onmessage message now g) !! j = players g !! j) /\
  ((forall i, m_playerId message = Some i -> players g !! i = None) ->
     onmessage message now g = g).
Proof.
  intros Hact. unfold onmessage, handleServerMessage. rewrite Hact. simpl.
  unfold handlePlayerLeft, modify. simpl.
  destruct (m_playerId message) as [i|]; simpl.
  - repeat split.
    + injection H as <-. apply lookup_delete_eq.
    + intros j Hj. injection H as <-. apply lookup_delete_ne. congruence.
    + intros Habsent. apply set_players_id, delete_id, Habsent. reflexivity.
  - repeat split; intros; discriminate.
Qed.

Lemma player_left_removes_entry_witness :
  threw (handleServerMessage (leftMessage "p9") 0 (joinedAt 100 100)) = false /\
  myPlayer (onmessage (leftMessage "p9") 0 (joinedAt 100 100)) = myPlayer (joinedAt 100 100) /\
  (forall i, m_playerId (leftMessage "p9") = Some i ->
     players (onmessage (leftMessage "p9") 0 (joinedAt 100 100)) !! i = None /\
     forall j, j <> i ->
       players (onmessage (leftMessage "p9") 0 (joinedAt 100 100)) !! j
       = players (joinedAt 100 100) !! j) /\
  ((forall i, m_playerId (leftMessage "p9") = Some i -> players (joinedAt 100 100) !! i = None) ->
     onmessage (leftMessage "p9") 0 (joinedAt 100 100) = joinedAt 100 100).
Proof.
  apply (player_left_removes_entry (leftMessage "p9") 0 (joinedAt 100 100)).
  reflexivity.
Defined.

Lemma lookup_upsert {A} (ps old : gmap string A) (j : string) :
  (ps ∪ old) !! j = match ps !! j with Some d => Some d | None => old !! j end.
Proof.
  destruct (ps !! j) as [d|] eqn:Hj.
  - apply lookup_union_Some_l, Hj.
  - apply lookup_union_r, Hj.
Qed.

(** X7: a [players_moved] batch that carries a players map never throws
    and is an upsert by id: afterwards every id of the batch maps to the
    data of the batch, every other id to what it mapped to before, and
    the companions are untouched.  The local player and the viewport are
    touched only if the batch has an entry under the local player's id;
    then that entry becomes the local player and the viewport is
    recentred on it. *)
Theorem players_moved_upserts (message : Message) (now : Z) (g : GameClient)
    (ps : gmap string Player) :
  m_action message = Some "players_moved" ->
  m_players message = Some ps ->
  threw (handleServerMessage message now g) = false /\
  (forall j, players (onmessage message now g) !! j
             = match ps !! j with Some d => Some d | None => players g !! j end) /\
  npcs (onmessage message now g) = npcs g /\
  match ownEntry g ps with
  | None => myPlayer (onmessage message now g) = myPlayer g /\
            viewport (onmessage message now g) = viewport g
  | Some d => myPlayer (onmessage message now g) = Some d /\
              viewport (onmessage message now g)
              = viewport (updateViewport (set_myPlayer (Some d) g))
  end.
Proof.
  intros Hact Hps. unfold onmessage, handleServerMessage. rewrite Hact. simpl.
  unfold handlePlayersMoved, mbind, M_bind, modify. rewrite Hps. simpl.
  destruct (ownEntry g ps) as [d|]; simpl;
    repeat split; try reflexivity; intros j; apply lookup_upsert.
Qed.

Lemma players_moved_upserts_witness :
  threw (handleServerMessage (movedTo "p1" (crystal 500 50)) 50 (joinedAt 100 100)) = false /\
  (forall j, players (onmessage (movedTo "p1" (crystal 500 50)) 50 (joinedAt 100 100)) !! j
             = match ({[ "p1" := crystal 500 50 ]} : gmap string Player) !! j with
               | Some d => Some d
               | None => players (joinedAt 100 100) !! j
               end) /\
  npcs (onmessage (movedTo "p1" (crystal 500 50)) 50 (joinedAt 100 100))
  = npcs (joinedAt 100 100) /\
  match ownEntry (joinedAt 100 100) {[ "p1" := crystal 500 50 ]} with
  | None => myPlayer (onmessage (movedTo "p1" (crystal 500 50)) 50 (joinedAt 100 100))
            = myPlayer (joinedAt 100 100) /\
            viewport (onmessage (movedTo "p1" (crystal 500 50)) 50 (joinedAt 100 100))
            = viewport (joinedAt 100 100)
  | Some d => myPlayer (onmessage (movedTo "p1" (crystal 500 50)) 50 (joinedAt 100 100))
              = Some d /\
              viewport (onmessage (movedTo "p1" (crystal 500 50)) 50 (joinedAt 100 100))
              = viewport (updateViewport (set_myPlayer (Some d) (joinedAt 100 100)))
  end.
Proof.
  apply (players_moved_upserts (movedTo "p1" (crystal 500 50)) 50 (joinedAt 100 100)
           {[ "p1" := crystal 500 50 ]}); reflexivity.
Defined.

(** X8: a batch without a players map makes its handler throw.  For
    [players_moved] the client is then exactly as before; for a join
    acknowledgement the local player id has already been overwritten
    with the id of the message, and nothing else has changed. *)
Theorem batch_without_players_throws (message : Message) (now : Z) (g : GameClient) :
  m_players message = None ->
  (m_action message = Some "players_moved" ->
     threw (handleServerMessage message now g) = true /\
     onmessage message now g = g) /\
  (m_action message = Some "join_game" -> m_success message = true ->
     threw (handleServerMessage message now g) = true /\
     onmessage message now g = set_myPlayerId (m_playerId message) g).
Proof.
  intros Hps. split.
  - intros Hact. unfold onmessage, handleServerMessage. rewrite Hact. simpl.
    unfold handlePlayersMoved, mbind, M_bind. rewrite Hps. simpl. split; reflexivity.
  - intros Hact Hsucc. unfold onmessage, handleServerMessage. rewrite Hact. simpl.
    rewrite Hsucc. unfold handleJoinGameSuccess, mbind, M_bind, modify.
    rewrite Hps. simpl. split; reflexivity.
Qed.

Lemma batch_without_players_throws_witness :
  (m_action (bareMessage "players_moved") = Some "players_moved" ->
     threw (handleServerMessage (bareMessage "players_moved") 0 (joinedAt 100 100)) = true /\
     onmessage (bareMessage "players_moved") 0 (joinedAt 100 100) = joinedAt 100 100) /\
  (m_action (bareMessage "players_moved") = Some "join_game" ->
   m_success (bareMessage "players_moved") = true ->
     threw (handleServerMessage (bareMessage "players_moved") 0 (joinedAt 100 100)) = true /\
     onmessage (bareMessage "players_moved") 0 (joinedAt 100 100)
     = set_myPlayerId (m_playerId (bareMessage "players_moved")) (joinedAt 100 100)).
Proof.
  apply (batch_without_players_throws (bareMessage "players_moved") 0 (joinedAt 100 100)).
  reflexivity.
Defined.





(** X10: a [player_joined] notification without an avatar throws after
    the player has been stored: the player is in the store, the avatars
    are as before.  Without a player it throws before any write. *)
Theorem player_joined_partial_write (message : Message) (now : Z) (g : GameClient) :
  m_action message = Some "player_joined" ->
  m_avatar message = None ->
  threw (handleServerMessage message now g) = true /\
  avatars (onmessage message now g) = avatars g /\
  match m_player message with
  | Some p => players (onmessage message now g) = <[p_id p := p]> (players g)
  | None => onmessage message now g = g
  end.
Proof.
  intros Hact Ha. unfold onmessage, handleServerMessage. rewrite Hact. simpl.
  unfold handlePlayerJoined, mbind, M_bind, modify. rewrite Ha.
  destruct (m_player message) as [p|]; simpl; repeat split.
Qed.

Lemma player_joined_partial_write_witness :
  threw (handleServerMessage (joinedMessage (Some bob) None) 0 (joinedAt 100 100)) = true /\
  avatars (onmessage (joinedMessage (Some bob) None) 0 (joinedAt 100 100))
  = avatars (joinedAt 100 100) /\
  match m_player (joinedMessage (Some bob) None) with
  | Some p => players (onmessage (joinedMessage (Some bob) None) 0 (joinedAt 100 100))
              = <[p_id p := p]> (players (joinedAt 100 100))
  | None => onmessage (joinedMessage (Some bob) None) 0 (joinedAt 100 100)
            = joinedAt 100 100
  end.
Proof.
  apply (player_joined_partial_write (joinedMessage (Some bob) None) 0 (joinedAt 100 100));
    reflexivity.
Defined.

(** ** Deriving the images *)

Lemma avatars_updateViewport g : avatars (updateViewport g) = avatars g.
Proof. unfold updateViewport. destruct (myPlayer g); reflexivity. Qed.

Lemma loadImagesRaw_loadable (a : RawAvatar) :
  loadable a = true ->
  exists a', loadImagesRaw a = inl a' /\
             r_name a' = r_name a /\ r_frames a' = r_frames a /\
             is_Some (r_images a') /\
             (is_Some (r_images a) -> a' = a).
Proof.
  unfold loadable, loadImagesRaw. intros Hl.
  destruct (r_images a) as [imgs|] eqn:Hi.
  - exists a. rewrite Hi. repeat split; eauto.
  - destruct (r_frames a) as [frames|] eqn:Hf; [|discriminate].
    eexists. split; [reflexivity|]. simpl. repeat split; eauto.
    intros [x Hx]. discriminate.
Qed.

Lemma loadAvatarImagesRaw_completes (store : list (string * RawAvatar)) :
  forallb (fun e => loadable e.2) store = true ->
  exists store',
    loadAvatarImagesRaw store = (store', false) /\
    Forall2 (fun e e' =>
               e'.1 = e.1 /\ r_name e'.2 = r_name e.2 /\ r_frames e'.2 = r_frames e.2 /\
               is_Some (r_images e'.2) /\
               (is_Some (r_images e.2) -> e' = e))
            store store'.
Proof.
  induction store as [|[name a] rest IH]; simpl; intros Hall.
  - exists []. split; [reflexivity | constructor].
  - apply andb_prop in Hall as [Ha Hrest].
    destruct (loadImagesRaw_loadable a Ha) as (a' & Ea & Hn & Hf & Hi & Hsame).
    destruct (IH Hrest) as (rest' & Er & Hall2).
    exists ((name, a') :: rest'). rewrite Ea, Er. split; [reflexivity|].
    constructor; [|exact Hall2]. simpl. repeat split; try assumption.
    intros Himgs. rewrite (Hsame Himgs). reflexivity.
Qed.

Lemma loadAvatarImagesRaw_stops
    (before after : list (string * RawAvatar)) (name : string) (a : RawAvatar) :
  forallb (fun e => loadable e.2) before = true ->
  loadable a = false ->
  exists before',
    loadAvatarImagesRaw (before ++ (name, a) :: after)
    = (before' ++ (name, {| r_name := r_name a; r_frames := None; r_images := Some ∅ |})
                  :: after, true) /\
    fst (loadAvatarImagesRaw before) = before'.
Proof.
  intros Hbefore Ha.
  assert (Hone : loadImagesRaw a
                 = inr {| r_name := r_name a; r_frames := None; r_images := Some ∅ |}).
  { unfold loadable in Ha. unfold loadImagesRaw.
    destruct (r_images a); [discriminate|].
    destruct (r_frames a) eqn:Hf; [discriminate|]. reflexivity. }
  induction before as [|[n b] rest IH]; simpl.
  - exists []. rewrite Hone. split; reflexivity.
  - simpl in Hbefore. apply andb_prop in Hbefore as [Hb Hrest].
    destruct (loadImagesRaw_loadable b Hb) as (b' & Eb & _).
    destruct (IH Hrest) as (rest' & Er & Ef).
    rewrite Eb, Er. exists ((n, b') :: rest'). split; [reflexivity|].
    destruct (loadAvatarImagesRaw rest) as [r t]. simpl in *. rewrite Ef. reflexivity.
Qed.

Lemma loadAvatarImagesRaw_threw (store : list (string * RawAvatar)) :
  snd (loadAvatarImagesRaw store) = negb (forallb (fun e => loadable e.2) store).
Proof.
  induction store as [|[name a] rest IH]; simpl; [reflexivity|].
  destruct (loadable a) eqn:Ha.
  - destruct (loadImagesRaw_loadable a Ha) as (a' & Ea & _). rewrite Ea.
    destruct (loadAvatarImagesRaw rest) as [r t]. simpl in *. exact IH.
  - unfold loadable in Ha. unfold loadImagesRaw.
    destruct (r_images a); [discriminate|].
    destruct (r_frames a); [discriminate|]. reflexivity.
Qed.

(** X11: the loop of [loadAvatarImages], on the entries of the [Map] in
    their order and on avatar definitions whose frames may be missing.
    It throws exactly when some avatar has neither images nor frames.
    When it completes, every avatar has images, none has changed its key,
    its name or its frames, and the ones that had images already are as
    they were.  When it throws, it does so at the first avatar with
    neither: the avatars before it are as a completed loop leaves them,
    that avatar is left with an empty table of images and the avatars
    after it are untouched.  On an avatar that carries its frames, the
    body of the loop is [loadImages]. *)
Theorem loadAvatarImages_completes_or_stops :
  (forall store, snd (loadAvatarImagesRaw store)
                 = negb (forallb (fun e => loadable e.2) store)) /\
  (forall store,
     forallb (fun e => loadable e.2) store = true ->
     exists store',
       loadAvatarImagesRaw store = (store', false) /\
       Forall2 (fun e e' =>
                  e'.1 = e.1 /\ r_name e'.2 = r_name e.2 /\
                  r_frames e'.2 = r_frames e.2 /\
                  is_Some (r_images e'.2) /\
                  (is_Some (r_images e.2) -> e' = e))
               store store') /\
  (forall before after name a,
     forallb (fun e => loadable e.2) before = true ->
     loadable a = false ->
     exists before',
       loadAvatarImagesRaw (before ++ (name, a) :: after)
       = (before' ++ (name, {| r_name := r_name a; r_frames := None;
                               r_images := Some ∅ |}) :: after, true) /\
       fst (loadAvatarImagesRaw before) = before') /\
  (forall a : Avatar, loadImagesRaw (rawOf a) = inl (rawOf (loadImages a))).
Proof.
  split; [exact loadAvatarImagesRaw_threw|].
  split; [exact loadAvatarImagesRaw_completes|].
  split; [exact loadAvatarImagesRaw_stops|].
  intros a. unfold loadImagesRaw, rawOf, loadImages. simpl.
  destruct (a_images a) eqn:Hi; simpl; [rewrite Hi|]; reflexivity.
Qed.

(** The knight, then a paladin without frames, then the hero: the loop
    derives the images of the knight, throws at the paladin and never
    gets to the hero. *)
Lemma loadAvatarImages_stops_at_paladin :
  loadAvatarImagesRaw [("knight", rawOf knight); ("paladin", paladin); ("hero", rawOf hero)]
  = ([("knight", rawOf (loadImages knight));
      ("paladin", {| r_name := "paladin"; r_frames := None; r_images := Some ∅ |});
      ("hero", rawOf hero)], true).
Proof. reflexivity. Qed.

Lemma loadAvatarImages_completes_or_stops_witness :
  exists before',
    loadAvatarImagesRaw ([("knight", rawOf knight)] ++ ("paladin", paladin)
                           :: [("hero", rawOf hero)])
    = (before' ++ ("paladin", {| r_name := r_name paladin; r_frames := None;
                                 r_images := Some ∅ |}) :: [("hero", rawOf hero)], true) /\
    fst (loadAvatarImagesRaw [("knight", rawOf knight)]) = before'.
Proof.
  apply (proj1 (proj2 (proj2 loadAvatarImages_completes_or_stops))); reflexivity.
Defined.

(** ** The local player and its companions *)

Lemma knowsPlayer_attemptReconnect g :
  is_Some (myPlayer g) -> is_Some (myPlayer (attemptReconnect g)).
Proof. unfold attemptReconnect. destruct (_ <? _)%nat; trivial. Qed.

Lemma myPlayer_updateNPCs now g : myPlayer (updateNPCs now g) = myPlayer g.
Proof.
  unfold updateNPCs. destruct (myPlayer g) eqn:Hp; [|exact Hp].
  destruct (bool_decide _); simpl; exact Hp.
Qed.

Lemma knowsPlayer_step ev g g' :
  step ev g = Some g' -> is_Some (myPlayer g) -> is_Some (myPlayer g').
Proof.
  intros Hs Hg. destruct ev; simpl in Hs.
  - destruct (ws g) as [[]|]; inversion Hs; subst; exact Hg.
  - destruct (ws g) as [[]|]; inversion Hs; subst;
      apply (knowsPlayer_attemptReconnect (set_ws (Some CLOSED) g)); exact Hg.
  - destruct (ws g) as [[]|]; inversion Hs; subst; exact Hg.
  - destruct (fireTimer (timers g)) as [l|]; inversion Hs; subst.
    destruct ctorThrows; simpl; [|exact Hg].
    apply (knowsPlayer_attemptReconnect (set_timers (fun _ => l) g)); exact Hg.
  - destruct (isOpen g); inversion Hs; subst.
    apply (I_onmessage (fun g0 => is_Some (myPlayer g0)));
      [ intros i g0 H0; exact H0
      | intros f g0 H0; exact H0
      | intros p g0 _; simpl; eauto
      | intros f g0 H0; exact H0
      | intros now0 g0 H0; rewrite myPlayer_createNPCs; exact H0
      | intros g0 H0; rewrite myPlayer_updateViewport; exact H0
      | exact Hg ].
  - destruct (isOpen g); inversion Hs; subst; exact Hg.
  - inversion Hs; subst. rewrite myPlayer_updateNPCs. exact Hg.
  - inversion Hs; subst. unfold onresize. rewrite myPlayer_updateViewport. exact Hg.
  - inversion Hs; subst. unfold keydown.
    destruct (negb _); [exact Hg|]. destruct (keyDirection key); exact Hg.
  - inversion Hs; subst. unfold keyup.
    destruct (negb _); [exact Hg|].
    destruct (existsb (String.eqb key) stopKeys); exact Hg.
Qed.

(** X12: once the client knows its local player it never forgets it:
    no run of events, not even a notification that this player left or a
    loss of the connection, sets the local player back to null. *)
Theorem local_player_never_forgotten (evs : list Event) (g g' : GameClient) :
  run evs g = Some g' ->
  is_Some (myPlayer g) ->
  is_Some (myPlayer g').
Proof.
  intros Hrun Hg.
  exact (run_invariant (fun g0 => is_Some (myPlayer g0)) knowsPlayer_step evs g g' Hrun Hg).
Qed.

Lemma joinedAt_myPlayer jx jy : myPlayer (joinedAt jx jy) = Some (crystal jx jy).
Proof. rewrite joinedAt_eq, myPlayer_updateViewport, myPlayer_createNPCs. reflexivity. Qed.

Lemma local_player_never_forgotten_witness :
  is_Some (myPlayer (onmessage (leftMessage "p1") 7 (joinedAt 100 100))).
Proof.
  apply (local_player_never_forgotten [EvMessage (leftMessage "p1") 7] (joinedAt 100 100)).
  - rewrite run_cons. simpl step. unfold joinedAt at 1. rewrite isOpen_onmessage.
    reflexivity.
  - rewrite joinedAt_myPlayer. eauto.
Defined.

Lemma crewInv_createNPCs now g : crewInv g -> crewInv (createNPCs now g).
Proof.
  intros Hg. unfold createNPCs. destruct (myPlayer g) as [p|] eqn:Hp; [|exact Hg].
  right. simpl. rewrite Hp. split; [eauto|].
  rewrite !dom_insert_L. unfold companionIds.
  destruct Hg as [He|[_ Hd]].
  - rewrite He, dom_empty_L. set_solver.
  - rewrite Hd. unfold companionIds. set_solver.
Qed.

Lemma crewInv_updateNPCs now g : crewInv g -> crewInv (updateNPCs now g).
Proof.
  intros Hg. unfold updateNPCs. destruct (myPlayer g) as [p|] eqn:Hp; [|exact Hg].
  destruct (bool_decide _); [exact Hg|].
  destruct Hg as [He|[_ Hd]].
  - left. simpl. rewrite He. apply fmap_empty.
  - right. simpl. rewrite Hp, dom_fmap_L. split; [eauto | exact Hd].
Qed.

Lemma crewInv_updateViewport g : crewInv g -> crewInv (updateViewport g).
Proof.
  unfold crewInv. rewrite npcs_updateViewport, myPlayer_updateViewport. trivial.
Qed.

Lemma crewInv_attemptReconnect g : crewInv g -> crewInv (attemptReconnect g).
Proof. unfold attemptReconnect. destruct (_ <? _)%nat; trivial. Qed.

Lemma crewInv_step ev g g' : step ev g = Some g' -> crewInv g -> crewInv g'.
Proof.
  intros Hs Hg. destruct ev; simpl in Hs.
  - destruct (ws g) as [[]|]; inversion Hs; subst; exact Hg.
  - destruct (ws g) as [[]|]; inversion Hs; subst;
      apply (crewInv_attemptReconnect (set_ws (Some CLOSED) g)); exact Hg.
  - destruct (ws g) as [[]|]; inversion Hs; subst; exact Hg.
  - destruct (fireTimer (timers g)) as [l|]; inversion Hs; subst.
    destruct ctorThrows; simpl; [|exact Hg].
    apply (crewInv_attemptReconnect (set_timers (fun _ => l) g)); exact Hg.
  - destruct (isOpen g); inversion Hs; subst.
    apply I_onmessage;
      [ intros i g0 H0; exact H0
      | intros f g0 H0; exact H0
      | intros p g0 [He|[_ Hd]];
          [left; exact He | right; split; [simpl; eauto | exact Hd]]
      | intros f g0 H0; exact H0
      | apply crewInv_createNPCs
      | apply crewInv_updateViewport
      | exact Hg ].
  - destruct (isOpen g); inversion Hs; subst; exact Hg.
  - inversion Hs; subst. apply crewInv_updateNPCs, Hg.
  - inversion Hs; subst. apply crewInv_updateViewport. exact Hg.
  - inversion Hs; subst. unfold keydown.
    destruct (negb _); [exact Hg|]. destruct (keyDirection key); exact Hg.
  - inversion Hs; subst. unfold keyup.
    destruct (negb _); [exact Hg|].
    destruct (existsb (String.eqb key) stopKeys); exact Hg.
Qed.

(** X13: in every state the client can reach, a companion exists only if
    the local player is known, and then the companions are exactly the
    three with ids npc1, npc2 and npc3: re-joining replaces them and
    never adds a fourth. *)
Theorem companions_are_the_three (g : GameClient) :
  reachable g ->
  npcs g = ∅ \/
  (is_Some (myPlayer g) /\ dom (npcs g) = companionIds /\ size (npcs g) = 3%nat).
Proof.
  intros (w & h & b & evs & Hrun).
  assert (Hinv : crewInv g).
  { eapply run_invariant; [exact crewInv_step | exact Hrun |].
    left. unfold constructor, connectToServer.
    destruct b; [unfold attemptReconnect; destruct (_ <? _)%nat|]; reflexivity. }
  destruct Hinv as [He|[Hp Hd]]; [left; exact He|].
  right. repeat split; [exact Hp | exact Hd|].
  rewrite <- size_dom, Hd. reflexivity.
Qed.

Lemma companions_are_the_three_witness :
  npcs (joinedAt 100 100) = ∅ \/
  (is_Some (myPlayer (joinedAt 100 100)) /\
   dom (npcs (joinedAt 100 100)) = companionIds /\
   size (npcs (joinedAt 100 100)) = 3%nat).
Proof.
  apply (companions_are_the_three (joinedAt 100 100)). apply reachable_joinedAt.
Defined.

(** ** Where the camera puts the local player *)

Lemma clampTo_cases (hi v : R) :
  (v <= 0 /\ clampTo hi v = 0) \/
  (hi <= 0 /\ clampTo hi v = 0) \/
  (0 <= v <= hi /\ clampTo hi v = v) \/
  (0 <= hi <= v /\ clampTo hi v = hi).
Proof.
  unfold clampTo, Rmax, Rmin.
  destruct (Rle_dec v hi); destruct (Rle_dec 0 _); lra.
Qed.

Lemma viewport_updateViewport g p :
  myPlayer g = Some p ->
  viewport (updateViewport g)
  = {| v_x := clampTo (worldWidth - v_width (viewport g))
                (p_x p - v_width (viewport g) / 2);
       v_y := clampTo (worldHeight - v_height (viewport g))
                (p_y p - v_height (viewport g) / 2);
       v_width := v_width (viewport g);
       v_height := v_height (viewport g) |}.
Proof. intros Hp. unfold updateViewport. rewrite Hp. reflexivity. Qed.

Lemma clamped_offset_in_view (world size c : R) :
  0 <= c <= world -> 0 <= size <= world ->
  0 <= c - clampTo (world - size) (c - size / 2) <= size.
Proof.
  intros Hc Hs.
  destruct (clampTo_cases (world - size) (c - size / 2))
    as [[H ->]|[[H ->]|[[H ->]|[H ->]]]]; lra.
Qed.

(** X14: when the local player stands inside the world and the viewport
    is not larger than the world, [updateViewport] leaves the player
    inside the viewport: its screen position lies within the canvas. *)
Theorem local_player_in_view (g : GameClient) (p : Player) :
  myPlayer g = Some p ->
  inWorld (p_x p) (p_y p) ->
  0 <= v_width (viewport g) <= worldWidth ->
  0 <= v_height (viewport g) <= worldHeight ->
  0 <= pos_x (worldToScreen (updateViewport g) (p_x p) (p_y p)) <= v_width (viewport g) /\
  0 <= pos_y (worldToScreen (updateViewport g) (p_x p) (p_y p)) <= v_height (viewport g).
Proof.
  intros Hp [Hx Hy] Hw Hh. unfold worldToScreen.
  rewrite (viewport_updateViewport g p Hp). simpl.
  split; apply clamped_offset_in_view; assumption.
Qed.

Lemma joinedAt_viewport_size jx jy :
  v_width (viewport (joinedAt jx jy)) = 800 /\ v_height (viewport (joinedAt jx jy)) = 600.
Proof.
  rewrite joinedAt_eq. rewrite (viewport_updateViewport _ (crystal jx jy)).
  - simpl. split; reflexivity.
  - rewrite myPlayer_createNPCs. reflexivity.
Qed.

Lemma local_player_in_view_witness :
  0 <= pos_x (worldToScreen (updateViewport (joinedAt 100 100))
                (p_x (crystal 100 100)) (p_y (crystal 100 100)))
    <= v_width (viewport (joinedAt 100 100)) /\
  0 <= pos_y (worldToScreen (updateViewport (joinedAt 100 100))
                (p_x (crystal 100 100)) (p_y (crystal 100 100)))
    <= v_height (viewport (joinedAt 100 100)).
Proof.
  destruct (joinedAt_viewport_size 100 100) as [Hw Hh].
  apply (local_player_in_view (joinedAt 100 100) (crystal 100 100)).
  - apply joinedAt_myPlayer.
  - unfold inWorld, worldWidth, worldHeight; simpl; lra.
  - rewrite Hw. unfold worldWidth. lra.
  - rewrite Hh. unfold worldHeight. lra.
Defined.

(** X15: when the local player is at least half a viewport away from
    every edge of the world, [updateViewport] puts it exactly at the
    centre of the viewport. *)
Theorem local_player_centred (g : GameClient) (p : Player) :
  myPlayer g = Some p ->
  v_width (viewport g) / 2 <= p_x p <= worldWidth - v_width (viewport g) / 2 ->
  v_height (viewport g) / 2 <= p_y p <= worldHeight - v_height (viewport g) / 2 ->
  worldToScreen (updateViewport g) (p_x p) (p_y p)
  = {| pos_x := v_width (viewport g) / 2; pos_y := v_height (viewport g) / 2 |}.
Proof.
  intros Hp Hx Hy. unfold worldToScreen.
  rewrite (viewport_updateViewport g p Hp). simpl.
  rewrite !clampTo_id by lra. f_equal; lra.
Qed.

Lemma local_player_centred_witness :
  worldToScreen (updateViewport (joinedAt 1000 1000))
    (p_x (crystal 1000 1000)) (p_y (crystal 1000 1000))
  = {| pos_x := v_width (viewport (joinedAt 1000 1000)) / 2;
       pos_y := v_height (viewport (joinedAt 1000 1000)) / 2 |}.
Proof.
  destruct (joinedAt_viewport_size 1000 1000) as [Hw Hh].
  apply (local_player_centred (joinedAt 1000 1000) (crystal 1000 1000)).
  - apply joinedAt_myPlayer.
  - rewrite Hw. unfold worldWidth. simpl. lra.
  - rewrite Hh. unfold worldHeight. simpl. lra.
Defined.

(** X16: recentring is idempotent: a second [updateViewport], or a second
    resize to the same window size, changes nothing. *)
Theorem updateViewport_idempotent (g : GameClient) (w h : R) :
  updateViewport (updateViewport g) = updateViewport g /\
  onresize w h (onresize w h g) = onresize w h g.
Proof.
  assert (Hidem : forall g0, updateViewport (updateViewport g0) = updateViewport g0).
  { intros g0. unfold updateViewport.
    destruct (myPlayer g0) as [p|] eqn:Hp; simpl; rewrite Hp; reflexivity. }
  split; [apply Hidem|].
  unfold onresize at 1.
  replace (setupCanvas w h (onresize w h g)) with (onresize w h g); [apply Hidem|].
  unfold onresize, setupCanvas, updateViewport. simpl.
  destruct (myPlayer g); reflexivity.
Qed.

(** ** More on the tick of a companion *)









Lemma distanceTo_zero (p : Player) (npc : NPC) :
  p_x p - n_x npc = 0 -> p_y p - n_y npc = 0 -> distanceTo p npc = 0.
Proof.
  intros Hx Hy. unfold distanceTo. rewrite Hx, Hy.
  replace (0 * 0 + 0 * 0) with 0 by ring. apply sqrt_0.
Qed.

(** X19: in every state the client can reach, a due companion that is
    farther than its follow distance ends its tick facing the player
    along the axis with the larger offset: east or west only if the
    player is strictly to that side and the horizontal offset is the
    strictly larger one, south or north only if the player is strictly
    below or above. *)
Theorem tick_faces_the_player
    (g : GameClient) (now : Z) (i : string) (npc : NPC) (p : Player) :
  reachable g ->
  myPlayer g = Some p ->
  npcs g !! i = Some npc ->
  due now npc ->
  n_followDistance npc < distanceTo p npc ->
  exists npc', npcs (updateNPCs now g) !! i = Some npc' /\
    match n_facing npc' with
    | east => 0 < p_x p - n_x npc /\ Rabs (p_y p - n_y npc) < Rabs (p_x p - n_x npc)
    | west => p_x p - n_x npc < 0 /\ Rabs (p_y p - n_y npc) < Rabs (p_x p - n_x npc)
    | south => 0 < p_y p - n_y npc /\ Rabs (p_x p - n_x npc) <= Rabs (p_y p - n_y npc)
    | north => p_y p - n_y npc < 0 /\ Rabs (p_x p - n_x npc) <= Rabs (p_y p - n_y npc)
    end.
Proof.
  intros Hreach Hp Hn Hdue Hfar.
  exists (tickNPC p now npc). split; [apply updateNPCs_due; assumption|].
  assert (Hd : 0 < distanceTo p npc).
  { destruct (reachable_companionsInv g Hreach i npc Hn) as [H|[H|H]];
      rewrite H in Hfar; lra. }
  rewrite tickNPC_far_facing by exact Hfar.
  set (dx := p_x p - n_x npc) in *. set (dy := p_y p - n_y npc) in *.
  assert (Hnz : ~ (dx = 0 /\ dy = 0)).
  { intros [Hx Hy]. rewrite (distanceTo_zero p npc Hx Hy) in Hd. lra. }
  clearbody dx dy.
  destruct (Rgt_dec (Rabs dx) (Rabs dy)) as [Hgt|Hle]; unfold Rgt in *.
  - destruct (Rgt_dec dx 0) as [Hpos|Hneg]; unfold Rgt in *;
      (split; [|exact Hgt]); [exact Hpos|].
    revert Hgt. unfold Rabs. destruct (Rcase_abs dx); destruct (Rcase_abs dy); lra.
  - destruct (Rgt_dec dy 0) as [Hpos|Hneg]; unfold Rgt in *;
      (split; [|lra]); [exact Hpos|].
    revert Hle Hnz. unfold Rabs. destruct (Rcase_abs dx); destruct (Rcase_abs dy); lra.
Qed.

Lemma tick_faces_the_player_witness :
  exists npc',
    npcs (updateNPCs 100 (scenario 100 100 500 50)) !! "npc1" = Some npc' /\
    match n_facing npc' with
    | east => 0 < p_x (crystal 500 50) - n_x (guardian (100 - 50) (100 - 50) 0) /\
              Rabs (p_y (crystal 500 50) - n_y (guardian (100 - 50) (100 - 50) 0))
              < Rabs (p_x (crystal 500 50) - n_x (guardian (100 - 50) (100 - 50) 0))
    | west => p_x (crystal 500 50) - n_x (guardian (100 - 50) (100 - 50) 0) < 0 /\
              Rabs (p_y (crystal 500 50) - n_y (guardian (100 - 50) (100 - 50) 0))
              < Rabs (p_x (crystal 500 50) - n_x (guardian (100 - 50) (100 - 50) 0))
    | south => 0 < p_y (crystal 500 50) - n_y (guardian (100 - 50) (100 - 50) 0) /\
               Rabs (p_x (crystal 500 50) - n_x (guardian (100 - 50) (100 - 50) 0))
               <= Rabs (p_y (crystal 500 50) - n_y (guardian (100 - 50) (100 - 50) 0))
    | north => p_y (crystal 500 50) - n_y (guardian (100 - 50) (100 - 50) 0) < 0 /\
               Rabs (p_x (crystal 500 50) - n_x (guardian (100 - 50) (100 - 50) 0))
               <= Rabs (p_y (crystal 500 50) - n_y (guardian (100 - 50) (100 - 50) 0))
    end.
Proof.
  apply (tick_faces_the_player (scenario 100 100 500 50) 100 "npc1"
           (guardian (100 - 50) (100 - 50) 0) (crystal 500 50));
    try scenario_facts.
  rewrite distanceTo_east; simpl; lra.
Defined.

(** X20: the tick rate is capped per companion: once a companion has had
    its tick at time [now], any further call of [updateNPCs] less than
    100 ms later leaves that companion exactly as it is. *)
Theorem tick_rate_capped
    (g : GameClient) (now now' : Z) (i : string) (npc : NPC) (p : Player) :
  myPlayer g = Some p ->
  npcs g !! i = Some npc ->
  due now npc ->
  (now' - now < updateInterval)%Z ->
  npcs (updateNPCs now' (updateNPCs now g)) !! i = npcs (updateNPCs now g) !! i.
Proof.
  intros Hp Hn Hdue Hsoon.
  pose proof (updateNPCs_due g now i npc p Hp Hn Hdue) as Hticked.
  rewrite Hticked. apply updateNPCs_not_due; [exact Hticked|].
  unfold due, tickNPC. simpl. lia.
Qed.

Lemma tick_rate_capped_witness :
  npcs (updateNPCs 150 (updateNPCs 100 (scenario 100 100 500 50))) !! "npc1"
  = npcs (updateNPCs 100 (scenario 100 100 500 50)) !! "npc1".
Proof.
  apply (tick_rate_capped (scenario 100 100 500 50) 100 150 "npc1"
           (guardian (100 - 50) (100 - 50) 0) (crystal 500 50));
    scenario_facts.
Defined.

Lemma updateNPC_identity p now npc :
  n_id (updateNPC p now npc) = n_id npc /\
  n_name (updateNPC p now npc) = n_name npc /\
  n_avatar (updateNPC p now npc) = n_avatar npc /\
  n_followDistance (updateNPC p now npc) = n_followDistance npc.
Proof.
  unfold updateNPC, tickNPC. destruct (_ <? _)%Z; [repeat split|].
  destruct (Rgt_dec _ _); repeat split.
Qed.

(** X21: [updateNPCs] neither adds nor removes a companion, and it never
    changes the id, the name, the avatar or the follow distance of one;
    it leaves the players, the local player and the viewport alone. *)
Theorem updateNPCs_keeps_identity (g : GameClient) (now : Z) :
  dom (npcs (updateNPCs now g)) = dom (npcs g) /\
  (forall i npc', npcs (updateNPCs now g) !! i = Some npc' ->
     exists npc, npcs g !! i = Some npc /\
       n_id npc' = n_id npc /\ n_name npc' = n_name npc /\
       n_avatar npc' = n_avatar npc /\
       n_followDistance npc' = n_followDistance npc) /\
  players (updateNPCs now g) = players g /\
  myPlayer (updateNPCs now g) = myPlayer g /\
  viewport (updateNPCs now g) = viewport g.
Proof.
  unfold updateNPCs. destruct (myPlayer g) as [p|] eqn:Hp.
  - destruct (bool_decide _); simpl.
    + repeat split; try assumption. intros i npc' Hl. exists npc'. repeat split. exact Hl.
    + rewrite dom_fmap_L. repeat split; try assumption.
      intros i npc'. rewrite lookup_fmap. intros Hl.
      destruct (npcs g !! i) as [npc|]; [|discriminate].
      injection Hl as <-. exists npc. split; [reflexivity|]. apply updateNPC_identity.
  - repeat split; try assumption. intros i npc' Hl. exists npc'. repeat split. exact Hl.
Qed.

Lemma sum_squares_le (dx dy r : R) :
  0 <= r -> dx * dx + dy * dy <= r * r -> sqrt (dx * dx + dy * dy) <= r.
Proof.
  intros Hr Hle. rewrite <- (sqrt_square r) by exact Hr. apply sqrt_le_1_alt, Hle.
Qed.

Lemma tickNPC_followDistance p now npc :
  n_followDistance (tickNPC p now npc) = n_followDistance npc.
Proof. unfold tickNPC. destruct (Rgt_dec _ _); reflexivity. Qed.

Lemma tickNPC_near_fixed p now npc :
  inWorld (n_x npc) (n_y npc) ->
  distanceTo p npc <= n_followDistance npc ->
  n_x (tickNPC p now npc) = n_x npc /\ n_y (tickNPC p now npc) = n_y npc.
Proof.
  intros [Hx Hy] Hnear.
  destruct (tickNPC_near p now npc Hnear) as (Ex & Ey & _).
  rewrite Ex, Ey, !clampTo_id by assumption. split; reflexivity.
Qed.

Lemma ticksAt_near_fixed p (times : list Z) : forall npc,
  inWorld (n_x npc) (n_y npc) ->
  distanceTo p npc <= n_followDistance npc ->
  n_x (ticksAt p times npc) = n_x npc /\
  n_y (ticksAt p times npc) = n_y npc /\
  n_followDistance (ticksAt p times npc) = n_followDistance npc.
Proof.
  unfold ticksAt.
  induction times as [|now rest IH]; intros npc Hin Hnear; [repeat split|].
  simpl.
  destruct (tickNPC_near_fixed p now npc Hin Hnear) as [Hx Hy].
  pose proof (tickNPC_followDistance p now npc) as Hf.
  destruct (IH (tickNPC p now npc)) as (Hx' & Hy' & Hf').
  - rewrite Hx, Hy. exact Hin.
  - rewrite (distanceTo_same_position p npc _ Hx Hy), Hf. exact Hnear.
  - rewrite Hx', Hy', Hf'. repeat split; assumption.
Qed.

(** What [createNPCs] places around the local player: each companion
    within its own follow distance, and inside the world when the player
    stands at least 50 units inside it. *)
Lemma created_companions_near
    (g : GameClient) (now : Z) (i : string) (p : Player) :
  myPlayer g = Some p ->
  i ∈ companionIds ->
  exists npc, npcs (createNPCs now g) !! i = Some npc /\
              distanceTo p npc <= n_followDistance npc /\
              (50 <= p_x p <= worldWidth - 50 ->
               50 <= p_y p <= worldHeight - 50 ->
               inWorld (n_x npc) (n_y npc)).
Proof.
  intros Hp Hi. unfold createNPCs. rewrite Hp. simpl.
  unfold companionIds in Hi.
  apply elem_of_union in Hi as [Hi|Hi]; [apply elem_of_union in Hi as [Hi|Hi]|];
    apply elem_of_singleton in Hi; subst i.
  - eexists. rewrite lookup_insert_ne by discriminate.
    rewrite lookup_insert_ne by discriminate. rewrite lookup_insert_eq.
    split; [reflexivity|]. split.
    + unfold distanceTo. simpl. apply sum_squares_le; lra.
    + unfold inWorld, worldWidth, worldHeight. simpl. lra.
  - eexists. rewrite lookup_insert_ne by discriminate. rewrite lookup_insert_eq.
    split; [reflexivity|]. split.
    + unfold distanceTo. simpl. apply sum_squares_le; lra.
    + unfold inWorld, worldWidth, worldHeight. simpl. lra.
  - eexists. rewrite lookup_insert_eq. split; [reflexivity|]. split.
    + unfold distanceTo. simpl. apply sum_squares_le; lra.
    + unfold inWorld, worldWidth, worldHeight. simpl. lra.
Qed.

(** X22: the three companions that [createNPCs] places around the local
    player are each within their own follow distance of it, so that the
    tick that follows does not mark any of them as moving.  When the
    local player stands at least 50 units inside the world on every side,
    so that the three are created inside the world, they stay put as long
    as the player stays where it is: whatever the number of ticks and
    their times, each companion keeps its position and no tick marks it
    as moving.  (Nearer to an edge, the clamp of the first tick may pull a
    companion away from the player, and the claim ends there.) *)
Theorem created_companions_stay_put
    (g : GameClient) (now : Z) (i : string) (p : Player) :
  myPlayer g = Some p ->
  i ∈ companionIds ->
  exists npc, npcs (createNPCs now g) !! i = Some npc /\
              distanceTo p npc <= n_followDistance npc /\
              (forall now', n_isMoving (tickNPC p now' npc) = false) /\
              (50 <= p_x p <= worldWidth - 50 ->
               50 <= p_y p <= worldHeight - 50 ->
               forall (times : list Z) (now' : Z),
                 n_x (ticksAt p times npc) = n_x npc /\
                 n_y (ticksAt p times npc) = n_y npc /\
                 n_isMoving (tickNPC p now' (ticksAt p times npc)) = false).
Proof.
  intros Hp Hi.
  destruct (created_companions_near g now i p Hp Hi) as (npc & Hl & Hnear & Hin).
  exists npc. split; [exact Hl|]. split; [exact Hnear|]. split.
  - intros now'. apply (tickNPC_near p now' npc Hnear).
  - intros Hx Hy times now'.
    destruct (ticksAt_near_fixed p times npc (Hin Hx Hy) Hnear) as (Ex & Ey & Ef).
    split; [exact Ex|]. split; [exact Ey|].
    apply tickNPC_near.
    rewrite (distanceTo_same_position p npc _ Ex Ey), Ef. exact Hnear.
Qed.

Lemma created_companions_stay_put_witness :
  exists npc, npcs (createNPCs 0 (joinedAt 100 100)) !! "npc2" = Some npc /\
              distanceTo (crystal 100 100) npc <= n_followDistance npc /\
              (forall now', n_isMoving (tickNPC (crystal 100 100) now' npc) = false) /\
              (50 <= p_x (crystal 100 100) <= worldWidth - 50 ->
               50 <= p_y (crystal 100 100) <= worldHeight - 50 ->
               forall (times : list Z) (now' : Z),
                 n_x (ticksAt (crystal 100 100) times npc) = n_x npc /\
                 n_y (ticksAt (crystal 100 100) times npc) = n_y npc /\
                 n_isMoving (tickNPC (crystal 100 100) now'
                               (ticksAt (crystal 100 100) times npc)) = false).
Proof.
  apply (created_companions_stay_put (joinedAt 100 100) 0 "npc2" (crystal 100 100)).
  - apply joinedAt_myPlayer.
  - unfold companionIds. set_solver.
Defined.

(** ** Rendering *)

Lemma frameOf_npcAvatar name color (f : Facing) (frame : nat) :
  (frame < 3)%nat ->
  exists images,
    a_images (npcAvatar name color) = Some images /\
    frameOf images f frame = Some (ImageSquare color).
Proof.
  intros Hlt. eexists. split; [reflexivity|].
  unfold frameOf.
  destruct f; simpl;
    repeat (rewrite lookup_insert_ne by discriminate); rewrite lookup_insert_eq;
    (destruct frame as [|[|[|n]]]; [reflexivity | reflexivity | reflexivity | lia]).
Qed.

Lemma updateNPC_frame p now npc :
  (n_animationFrame npc < 3)%nat -> (n_animationFrame (updateNPC p now npc) < 3)%nat.
Proof.
  intros Hlt. unfold updateNPC, tickNPC. destruct (_ <? _)%Z; [exact Hlt|].
  destruct (Rgt_dec _ _); cbn [n_animationFrame]; [apply Nat.mod_upper_bound|]; lia.
Qed.

Lemma spriteInv_createNPCs now g : spriteInv g -> spriteInv (createNPCs now g).
Proof.
  intros Hg. unfold createNPCs. destruct (myPlayer g) as [p|]; [|exact Hg].
  assert (Hav : forall npc,
    (exists color, npcAvatars g !! n_avatar npc = Some (npcAvatar (n_avatar npc) color)) ->
    exists color,
      npcAvatars (createNPCAvatars g) !! n_avatar npc
      = Some (npcAvatar (n_avatar npc) color)).
  { intros npc [color Hc]. unfold createNPCAvatars. simpl.
    destruct (decide (n_avatar npc = "pet")) as [->|Hpet];
      [rewrite lookup_insert_eq; eauto | rewrite lookup_insert_ne by congruence].
    destruct (decide (n_avatar npc = "companion")) as [->|Hco];
      [rewrite lookup_insert_eq; eauto | rewrite lookup_insert_ne by congruence].
    destruct (decide (n_avatar npc = "guardian")) as [->|Hgu];
      [rewrite lookup_insert_eq; eauto | rewrite lookup_insert_ne by congruence].
    eauto. }
  intros i npc. simpl. intros Hl.
  apply lookup_insert_Some in Hl as [[_ <-]|[_ Hl]].
  { split; [simpl; lia|]. simpl. rewrite lookup_insert_eq. eauto. }
  apply lookup_insert_Some in Hl as [[_ <-]|[_ Hl]].
  { split; [simpl; lia|]. simpl. rewrite lookup_insert_ne by discriminate.
    rewrite lookup_insert_eq. eauto. }
  apply lookup_insert_Some in Hl as [[_ <-]|[_ Hl]].
  { split; [simpl; lia|]. simpl. rewrite lookup_insert_ne by discriminate.
    rewrite lookup_insert_ne by discriminate. rewrite lookup_insert_eq. eauto. }
  destruct (Hg i npc Hl) as [Hf Hc]. split; [exact Hf | apply Hav, Hc].
Qed.

Lemma spriteInv_updateNPCs now g : spriteInv g -> spriteInv (updateNPCs now g).
Proof.
  intros Hg. unfold updateNPCs. destruct (myPlayer g) as [p|]; [|exact Hg].
  destruct (bool_decide _); [exact Hg|].
  intros i npc. simpl. rewrite lookup_fmap. intros Hl.
  destruct (npcs g !! i) as [npc0|] eqn:Hn; [|discriminate].
  injection Hl as <-. destruct (Hg i npc0 Hn) as [Hf Hc].
  destruct (updateNPC_identity p now npc0) as (_ & _ & Hav & _).
  split; [apply updateNPC_frame, Hf | rewrite Hav; exact Hc].
Qed.

Lemma npcAvatars_updateViewport g : npcAvatars (updateViewport g) = npcAvatars g.
Proof. unfold updateViewport. destruct (myPlayer g); reflexivity. Qed.

Lemma spriteInv_updateViewport g : spriteInv g -> spriteInv (updateViewport g).
Proof.
  unfold spriteInv. rewrite npcs_updateViewport, npcAvatars_updateViewport. trivial.
Qed.

Lemma spriteInv_attemptReconnect g : spriteInv g -> spriteInv (attemptReconnect g).
Proof. unfold attemptReconnect. destruct (_ <? _)%nat; trivial. Qed.

Lemma spriteInv_step ev g g' : step ev g = Some g' -> spriteInv g -> spriteInv g'.
Proof.
  intros Hs Hg. destruct ev; simpl in Hs.
  - destruct (ws g) as [[]|]; inversion Hs; subst; exact Hg.
  - destruct (ws g) as [[]|]; inversion Hs; subst;
      apply (spriteInv_attemptReconnect (set_ws (Some CLOSED) g)); exact Hg.
  - destruct (ws g) as [[]|]; inversion Hs; subst; exact Hg.
  - destruct (fireTimer (timers g)) as [l|]; inversion Hs; subst.
    destruct ctorThrows; simpl; [|exact Hg].
    apply (spriteInv_attemptReconnect (set_timers (fun _ => l) g)); exact Hg.
  - destruct (isOpen g); inversion Hs; subst.
    apply I_onmessage;
      [ intros i g0 H0; exact H0
      | intros f g0 H0; exact H0
      | intros p g0 H0; exact H0
      | intros f g0 H0; exact H0
      | apply spriteInv_createNPCs
      | apply spriteInv_updateViewport
      | exact Hg ].
  - destruct (isOpen g); inversion Hs; subst; exact Hg.
  - inversion Hs; subst. apply spriteInv_updateNPCs, Hg.
  - inversion Hs; subst. apply spriteInv_updateViewport. exact Hg.
  - inversion Hs; subst. unfold keydown.
    destruct (negb _); [exact Hg|]. destruct (keyDirection key); exact Hg.
  - inversion Hs; subst. unfold keyup.
    destruct (negb _); [exact Hg|].
    destruct (existsb (String.eqb key) stopKeys); exact Hg.
Qed.

Lemma reachable_spriteInv g : reachable g -> spriteInv g.
Proof.
  intros (w & h & b & evs & Hrun).
  eapply run_invariant; [exact spriteInv_step | exact Hrun |].
  intros i npc. unfold constructor, connectToServer.
  destruct b; [unfold attemptReconnect; destruct (_ <? _)%nat|]; simpl;
    rewrite lookup_empty; discriminate.
Qed.

(** X23: in every state the client can reach, [drawNPC] finds a sprite
    for every companion: its avatar is one of the painted squares and its
    frame number is below 3.  A companion that is not culled is therefore
    drawn in full, sprite and label. *)
Theorem companion_is_drawn_in_full
    (dims : Image -> R * R) (g : GameClient) (i : string) (npc : NPC) :
  reachable g ->
  npcs g !! i = Some npc ->
  offScreen g (worldToScreen g (n_x npc) (n_y npc)) = false ->
  (n_animationFrame npc < 3)%nat /\
  exists img,
    drawNPC dims g npc
    = drawSprite dims 28 (n_facing npc) img (worldToScreen g (n_x npc) (n_y npc))
      ++ drawNPCLabel npc (worldToScreen g (n_x npc) (n_y npc)).
Proof.
  intros Hreach Hn Hon.
  destruct (reachable_spriteInv g Hreach i npc Hn) as [Hf [color Hc]].
  split; [exact Hf|].
  destruct (frameOf_npcAvatar (n_avatar npc) color (n_facing npc) _ Hf)
    as (images & Himgs & Hframe).
  exists (ImageSquare color). unfold drawNPC. rewrite Hc, Himgs, Hon, Hframe. reflexivity.
Qed.

Lemma scenario_viewport_size jx jy mx my :
  v_width (viewport (scenario jx jy mx my)) = 800 /\
  v_height (viewport (scenario jx jy mx my)) = 600.
Proof.
  destruct (joinedAt_viewport_size jx jy) as [Hw Hh].
  rewrite scenario_eq. rewrite (viewport_updateViewport _ (crystal mx my)) by reflexivity.
  simpl. split; assumption.
Qed.

Lemma scenario_viewport_origin jx jy :
  jx <= 400 -> jy <= 300 ->
  v_x (viewport (scenario jx jy jx jy)) = 0 /\ v_y (viewport (scenario jx jy jx jy)) = 0.
Proof.
  intros Hx Hy. destruct (joinedAt_viewport_size jx jy) as [Hw Hh].
  rewrite scenario_eq. rewrite (viewport_updateViewport _ (crystal jx jy)) by reflexivity.
  simpl. rewrite Hw, Hh. unfold clampTo, worldWidth, worldHeight. simpl. split.
  - rewrite Rmin_left by lra. apply Rmax_left. lra.
  - rewrite Rmin_left by lra. apply Rmax_left. lra.
Qed.

Lemma offScreen_false (g : GameClient) (s : Pos) :
  -50 <= pos_x s <= v_width (viewport g) + 50 ->
  -50 <= pos_y s <= v_height (viewport g) + 50 ->
  offScreen g s = false.
Proof.
  intros Hx Hy. unfold offScreen.
  destruct (Rlt_dec _ _); [lra|]. destruct (Rgt_dec _ _) as [H|_]; [unfold Rgt in H; lra|].
  destruct (Rlt_dec _ _); [lra|]. destruct (Rgt_dec _ _) as [H|_]; [unfold Rgt in H; lra|].
  reflexivity.
Qed.

Lemma companion_is_drawn_in_full_witness :
  (n_animationFrame (guardian (100 - 50) (100 - 50) 0) < 3)%nat /\
  exists img,
    drawNPC (fun _ => (32, 32)) (scenario 100 100 100 100) (guardian (100 - 50) (100 - 50) 0)
    = drawSprite (fun _ => (32, 32)) 28 (n_facing (guardian (100 - 50) (100 - 50) 0)) img
        (worldToScreen (scenario 100 100 100 100)
           (n_x (guardian (100 - 50) (100 - 50) 0)) (n_y (guardian (100 - 50) (100 - 50) 0)))
      ++ drawNPCLabel (guardian (100 - 50) (100 - 50) 0)
           (worldToScreen (scenario 100 100 100 100)
              (n_x (guardian (100 - 50) (100 - 50) 0))
              (n_y (guardian (100 - 50) (100 - 50) 0))).
Proof.
  apply (companion_is_drawn_in_full (fun _ => (32, 32)) (scenario 100 100 100 100) "npc1"
           (guardian (100 - 50) (100 - 50) 0)); try scenario_facts.
  destruct (scenario_viewport_size 100 100 100 100) as [Hw Hh].
  destruct (scenario_viewport_origin 100 100) as [Hx Hy]; try lra.
  apply offScreen_false; unfold worldToScreen; simpl; rewrite ?Hw, ?Hh, ?Hx, ?Hy; lra.
Defined.

(** X24: the debug panel and [drawNPC] agree on what is in view: the
    panel reports a companion as visible exactly when the bounding check
    of [drawNPC] does not cull it. *)
Theorem debug_panel_agrees_with_culling (g : GameClient) (npc : NPC) :
  debugIsVisible g npc = negb (offScreen g (worldToScreen g (n_x npc) (n_y npc))).
Proof.
  unfold debugIsVisible, offScreen. cbv zeta.
  generalize (worldToScreen g (n_x npc) (n_y npc)). intros s.
  destruct (Rge_dec (pos_x s) (-50)); destruct (Rlt_dec (pos_x s) (-50));
    destruct (Rle_dec (pos_x s) (v_width (viewport g) + 50));
    destruct (Rgt_dec (pos_x s) (v_width (viewport g) + 50));
    destruct (Rge_dec (pos_y s) (-50)); destruct (Rlt_dec (pos_y s) (-50));
    destruct (Rle_dec (pos_y s) (v_height (viewport g) + 50));
    destruct (Rgt_dec (pos_y s) (v_height (viewport g) + 50));
    unfold Rgt in *; try reflexivity; exfalso; lra.
Qed.

(** X25: after [updateViewport], a local player that stands inside the
    world, in a viewport not larger than the world, is never culled:
    whenever its avatar is in the store with images, [drawPlayer] draws
    at least its name label. *)
Theorem local_player_is_drawn
    (dims : Image -> R * R) (g : GameClient) (p : Player)
    (av : Avatar) (images : gmap string (list Image)) :
  myPlayer g = Some p ->
  inWorld (p_x p) (p_y p) ->
  0 <= v_width (viewport g) <= worldWidth ->
  0 <= v_height (viewport g) <= worldHeight ->
  avatars g !! p_avatar p = Some av ->
  a_images av = Some images ->
  exists sprite,
    drawPlayer dims (updateViewport g) p
    = sprite ++ drawPlayerLabel p (worldToScreen (updateViewport g) (p_x p) (p_y p)).
Proof.
  intros Hp [Hx Hy] Hw Hh Hav Himgs.
  unfold drawPlayer. rewrite avatars_updateViewport, Hav, Himgs.
  rewrite offScreen_false; [eexists; reflexivity | |];
    unfold worldToScreen; rewrite (viewport_updateViewport g p Hp); simpl.
  - pose proof (clamped_offset_in_view worldWidth (v_width (viewport g)) (p_x p) Hx Hw). lra.
  - pose proof (clamped_offset_in_view worldHeight (v_height (viewport g)) (p_y p) Hy Hh). lra.
Qed.

Lemma withHero_eq :
  withHero
  = loadAvatarImages (set_avatars (<["hero" := hero]>)
      (set_players (<["p2" := bob]>) (joinedAt 100 100))).
Proof. reflexivity. Qed.

Lemma local_player_is_drawn_witness :
  exists sprite,
    drawPlayer (fun _ => (32, 32)) (updateViewport withHero) (crystal 100 100)
    = sprite ++ drawPlayerLabel (crystal 100 100)
                  (worldToScreen (updateViewport withHero)
                     (p_x (crystal 100 100)) (p_y (crystal 100 100))).
Proof.
  destruct (joinedAt_viewport_size 100 100) as [Hw Hh].
  apply (local_player_is_drawn (fun _ => (32, 32)) withHero (crystal 100 100)
           (loadImages hero) (fmap (map ImageSrc) (a_frames hero))).
  - rewrite withHero_eq. simpl. apply joinedAt_myPlayer.
  - unfold inWorld, worldWidth, worldHeight; simpl; lra.
  - rewrite withHero_eq. simpl. rewrite Hw. unfold worldWidth. lra.
  - rewrite withHero_eq. simpl. rewrite Hh. unfold worldHeight. lra.
  - rewrite withHero_eq. simpl. rewrite lookup_fmap, (lookup_insert_eq _ "hero").
    reflexivity.
  - reflexivity.
Defined.

Lemma drawPlayerLabel_nonempty player s : drawPlayerLabel player s <> [].
Proof. discriminate. Qed.

Lemma drawNPCLabel_nonempty npc s : drawNPCLabel npc s <> [].
Proof. discriminate. Qed.

Lemma app_nonempty_r {A} (l r : list A) : r <> [] -> l ++ r <> [].
Proof. intros Hr Happ. apply app_eq_nil in Happ. tauto. Qed.

(** X26: [drawPlayer] puts something on the canvas exactly when the
    avatar of the player is in the store with its images and the player
    is not culled; a missing frame only drops the sprite, not the label.
    The same holds for [drawNPC] with the companion avatars. *)
Theorem entity_drawn_iff_resolved_and_in_view
    (dims : Image -> R * R) (g : GameClient) (player : Player) (npc : NPC) :
  (drawPlayer dims g player <> [] <->
     (exists av images, avatars g !! p_avatar player = Some av /\
                        a_images av = Some images) /\
     offScreen g (worldToScreen g (p_x player) (p_y player)) = false) /\
  (drawNPC dims g npc <> [] <->
     (exists av images, npcAvatars g !! n_avatar npc = Some av /\
                        a_images av = Some images) /\
     offScreen g (worldToScreen g (n_x npc) (n_y npc)) = false).
Proof.
  split.
  - unfold drawPlayer.
    destruct (avatars g !! p_avatar player) as [av|];
      [|split; [congruence | intros [(av & images & H & _) _]; discriminate]].
    destruct (a_images av) as [images|] eqn:Himgs;
      [|split; [congruence | intros [(av' & images & H & H') _]; congruence]].
    destruct (offScreen g _);
      [split; [congruence | intros [_ H]; discriminate]|].
    split; [intros _; split; eauto|].
    intros _. apply app_nonempty_r, drawPlayerLabel_nonempty.
  - unfold drawNPC.
    destruct (npcAvatars g !! n_avatar npc) as [av|];
      [|split; [congruence | intros [(av & images & H & _) _]; discriminate]].
    destruct (a_images av) as [images|] eqn:Himgs;
      [|split; [congruence | intros [(av' & images & H & H') _]; congruence]].
    destruct (offScreen g _);
      [split; [congruence | intros [_ H]; discriminate]|].
    split; [intros _; split; eauto|].
    intros _. apply app_nonempty_r, drawNPCLabel_nonempty.
Qed.

Lemma depthAfter_app (d : nat) (a b : list CanvasOp) :
  depthAfter d (a ++ b)
  = match depthAfter d a with Some d' => depthAfter d' b | None => None end.
Proof.
  revert d. induction a as [|op a IH]; intros d; simpl; [reflexivity|].
  destruct op; try apply IH; destruct d; try reflexivity; apply IH.
Qed.

Lemma depthAfter_drawSprite dims size f img s d :
  depthAfter d (drawSprite dims size f img s) = Some d.
Proof. unfold drawSprite. destruct f; reflexivity. Qed.

Lemma depthAfter_drawPlayer dims g player d :
  depthAfter d (drawPlayer dims g player) = Some d.
Proof.
  unfold drawPlayer.
  destruct (avatars g !! p_avatar player) as [av|]; [|reflexivity].
  destruct (a_images av) as [images|]; [|reflexivity].
  destruct (offScreen g _); [reflexivity|].
  rewrite depthAfter_app.
  destruct (frameOf images _ _); [rewrite depthAfter_drawSprite|]; reflexivity.
Qed.

Lemma depthAfter_drawNPC dims g npc d :
  depthAfter d (drawNPC dims g npc) = Some d.
Proof.
  unfold drawNPC.
  destruct (npcAvatars g !! n_avatar npc) as [av|]; [|reflexivity].
  destruct (a_images av) as [images|]; [|reflexivity].
  destruct (offScreen g _); [reflexivity|].
  rewrite depthAfter_app.
  destruct (frameOf images _ _); [rewrite depthAfter_drawSprite|]; reflexivity.
Qed.

(** X27: whatever players and companions are drawn, in whatever order and
    state, the calls on the canvas are well bracketed: every change of
    the transform (the mirror flip of a west-facing sprite) or of a text
    style happens between a [save] and the [restore] that undoes it, so
    that drawing the entities leaves the canvas state as it found it. *)
Theorem entity_drawing_is_bracketed
    (dims : Image -> R * R) (g : GameClient) (ps : list Player) (ns : list NPC)
    (d : nat) :
  depthAfter d (flat_map (drawPlayer dims g) ps ++ flat_map (drawNPC dims g) ns) = Some d.
Proof.
  rewrite depthAfter_app.
  assert (Hps : depthAfter d (flat_map (drawPlayer dims g) ps) = Some d).
  { induction ps as [|p ps IH]; simpl; [reflexivity|].
    rewrite depthAfter_app, depthAfter_drawPlayer. exact IH. }
  rewrite Hps.
  induction ns as [|n ns IH]; simpl; [reflexivity|].
  rewrite depthAfter_app, depthAfter_drawNPC. exact IH.
Qed.

(** ** A join that succeeds, and a companion that catches up *)






